(** * Shuttle tracker: smooth tracking and spoofing

    A shallow embedding of three Go files of the shuttle tracker:

    - the geometry and the naive prediction of package [smooth]
      ([DistanceBetween], [AngleBetween], [ClosestPointTo], [ClosestStop],
      [HeadingTowardTowardOrLeavingStop], [DistanceToPointAlongRoute],
      [acceleration], [NaivePredictPosition]);
    - the tracking manager of package [smooth] ([SmoothTrackingManager]);
    - the replay engine of package [spoofer] ([Spoofer]).

    Conventions of the embedding.

    - A Go [float64] is read as a real number: rounding and overflow are
      outside the model, and the coordinates, speeds and headings that the
      code is given are finite.  The two places where the code itself makes
      a value that is not finite, the initial [math.Inf(1)] of
      [ClosestPointTo] and the quotient by a zero distance in
      [acceleration], have the type [float64] below.
    - A Go [int] or [int64] is a [Z]; the id counter of the replay engine
      wraps at 64 bits as in Go.
    - A Go pointer is an [option]: [None] is [nil], and dereferencing it
      panics.
    - A Go map is a [gmap]; the order in which [range] visits a map is not
      fixed by Go, so it is an argument of the loop that ranges.
    - A loop that Go runs while a condition holds is a [Fixpoint] on a fuel
      argument; running out of fuel is the result [Spinning], a run-time
      panic the result [Panic]. *)

From Stdlib Require Import Reals Lra ZArith Lia String.
From stdpp Require Import gmap list.

(** ** Results of running Go code *)

Inductive res (A : Type) : Type :=
| Ok (a : A)
| Panic
| Spinning.
Arguments Ok {A} a.
Arguments Panic {A}.
Arguments Spinning {A}.

#[global] Instance res_ret : MRet res := fun A a => Ok a.
#[global] Instance res_bind : MBind res := fun A B f r =>
  match r with
  | Ok a => f a
  | Panic => Panic
  | Spinning => Spinning
  end.

Definition is_Ok {A} (r : res A) : Prop := ∃ a, r = Ok a.

(** [*p] for a pointer [p]. *)
Definition deref {A} (p : option A) : res A :=
  match p with
  | Some a => Ok a
  | None => Panic
  end.

(** [len(l)] and [l[i]] for a slice [l] and an [int] index. *)
Definition len {A} (l : list A) : Z := Z.of_nat (length l).

Definition item {A} (l : list A) (i : Z) : res A :=
  if (i <? 0)%Z then Panic
  else match l !! Z.to_nat i with
       | Some a => Ok a
       | None => Panic
       end.

(** ** The data of package shuttletracker *)

(** Go's [time.Time] and [time.Duration], in nanoseconds; the zero
    [time.Time] is [0]. *)
Definition time_Time : Type := Z.
Bind Scope Z_scope with time_Time.
Definition zeroTime : time_Time := 0%Z.

(** Modelled from the spec: the types [Point], [Stop], [Route], [Vehicle]
    and [Location] of package shuttletracker, which the three files import
    and whose declarations are in none of them.  The fields are those of
    the spec's data model and those the three files read and write. *)
Record Point : Type := { Latitude : R; Longitude : R }.

Record Stop : Type := { stop_ID : Z; stop_Latitude : R; stop_Longitude : R }.

Record Route : Type := { route_ID : Z; Points : list Point; StopIDs : list Z }.

Record Vehicle : Type := { vehicle_ID : Z }.

Record Location : Type := {
  loc_ID : Z;
  loc_TrackerID : string;
  loc_Latitude : R;
  loc_Longitude : R;
  loc_Heading : R;
  loc_Speed : R;
  loc_Time : time_Time;
  loc_Created : time_Time;
  loc_VehicleID : option Z;
  loc_RouteID : option Z
}.

(** Modelled from the spec: the [ModelService] interface of package
    shuttletracker, the external collaborator of both managers.  A lookup
    returns a pointer and tells whether its error is non-nil; the list of
    stops is what [Stops()] returns, whose error the callers drop.
    [ms_CreateLocation n loc] tells whether the call number [n] (from 0) of
    [CreateLocation], made with [loc], returns an error. *)
Record ModelService : Type := {
  ms_Vehicle : Z → option Vehicle * bool;
  ms_Route : Z → option Route * bool;
  ms_Stops : list Stop;
  ms_CreateLocation : nat → Location → bool
}.

(** ** Geometry: package smooth *)

Module Geometry.
Open Scope R_scope.

Record Prediction : Type := {
  pred_VehicleID : Z;
  pred_Point : Point;
  pred_Index : Z;
  pred_Angle : R
}.

Definition earthRadius : R := 6371000.

(** [math.MaxFloat64]. *)
Definition MaxFloat64 : R := (2 - / 2 ^ 52) * 2 ^ 1023.

(** [math.Atan2(y, x)] of Go's library, on real numbers: the angle of the
    point [(x, y)], in the interval from [- PI] to [PI]. *)
Definition Atan2 (y x : R) : R :=
  if Rlt_dec 0 x then atan (y / x)
  else if Rlt_dec x 0 then
    if Rle_dec 0 y then atan (y / x) + PI else atan (y / x) - PI
  else if Rlt_dec 0 y then PI / 2
  else if Rlt_dec y 0 then - (PI / 2)
  else 0.

(** [math.Mod(x, y)] of Go's library, on real numbers: [x - y * n] for the
    quotient [x / y] truncated towards zero to the integer [n]. *)
Definition Trunc (x : R) : Z :=
  if Rle_dec 0 x then Int_part x else (- Int_part (- x))%Z.

Definition Mod (x y : R) : R := x - y * IZR (Trunc (x / y)).

Definition haversine (theta : R) : R := (1 - cos theta) / 2.

Definition toRadians (n : R) : R := n * PI / 180.

Definition toDegrees (angle : R) : R := angle * 180 / PI.

Definition DistanceBetween (p1 p2 : Point) : R :=
  let lat1Rad := toRadians (Latitude p1) in
  let lon1Rad := toRadians (Longitude p1) in
  let lat2Rad := toRadians (Latitude p2) in
  let lon2Rad := toRadians (Longitude p2) in
  2 * earthRadius * asin (sqrt (
    haversine (lat2Rad - lat1Rad) +
    cos lat1Rad * cos lat2Rad * haversine (lon2Rad - lon1Rad))).

Definition AngleBetween (p1 p2 : Point) : R :=
  let radLat1 := toRadians (Latitude p1) in
  let radLng1 := toRadians (Longitude p1) in
  let radLat2 := toRadians (Latitude p2) in
  let radLng2 := toRadians (Longitude p2) in
  let deltaLongitude := radLng2 - radLng1 in
  let y := sin deltaLongitude * cos radLat2 in
  let x := cos radLat1 * sin radLat2
           - sin radLat1 * cos radLat2 * cos deltaLongitude in
  let brng := Atan2 y x in
  let brng := toDegrees brng in
  let brng := Mod (brng + 360) 360 in
  brng - 45.

(** The comparisons of finite [float64] values decide the order of the
    reals. *)
#[global] Instance Rlt_decision (x y : R) : Decision (x < y) := Rlt_dec x y.
#[global] Instance Rle_decision (x y : R) : Decision (x <= y) := Rle_dec x y.
#[global] Instance Req_decision (x y : R) : Decision (x = y) := Req_dec_T x y.

(** A [float64] that need not be finite: a real number, plus infinity, or
    one of minus infinity and NaN, which no finite value is below. *)
Inductive float64 : Type :=
| Finite (x : R)
| PlusInf
| MinusInfOrNaN.

(** [x < y] for a finite [x]. *)
Definition below (x : R) (y : float64) : bool :=
  match y with
  | Finite y => bool_decide (x < y)
  | PlusInf => true
  | MinusInfOrNaN => false
  end.

(** The [range] loop of [ClosestPointTo]: [i] is the index of the head of
    [points] in [route.Points]. *)
Fixpoint ClosestPointTo_range (latitude longitude : R) (points : list Point)
    (i index : Z) (minDistance : float64) : Z :=
  match points with
  | [] => index
  | point :: points' =>
      let distance :=
        DistanceBetween point
          {| Latitude := latitude; Longitude := longitude |} in
      if below distance minDistance
      then ClosestPointTo_range latitude longitude points' (i + 1) i
             (Finite distance)
      else ClosestPointTo_range latitude longitude points' (i + 1) index
             minDistance
  end.

Definition ClosestPointTo (latitude longitude : R) (route : Route) : Z :=
  ClosestPointTo_range latitude longitude (Points route) 0 0 PlusInf.

(** The inner loop of [ClosestStop], [for j < len(stops)]: its body never
    changes [j], and leaves the loop only by the [break] that follows a
    new minimum.  The result is the pair of [minDistance] and
    [minDistanceStopIndex] after the loop. *)
Fixpoint ClosestStop_stops (fuel : nat) (currentIndex : Z) (route : Route)
    (stops : list Stop) (i j : Z) (minDistance : R)
    (minDistanceStopIndex : Z) : res (R * Z) :=
  if (j <? len stops)%Z then
    match fuel with
    | O => Spinning
    | S fuel' =>
        stopID ← item (StopIDs route) i;
        stop ← item stops j;
        if (stopID =? stop_ID stop)%Z then
          point ← item (Points route) currentIndex;
          let dist :=
            DistanceBetween
              {| Latitude := stop_Latitude stop;
                 Longitude := stop_Longitude stop |} point in
          if bool_decide (dist < minDistance) then Ok (dist, j)
          else ClosestStop_stops fuel' currentIndex route stops i j
                 minDistance minDistanceStopIndex
        else ClosestStop_stops fuel' currentIndex route stops i j
               minDistance minDistanceStopIndex
    end
  else Ok (minDistance, minDistanceStopIndex).

(** The outer loop of [ClosestStop], [for i < len(route.StopIDs)]: its
    body never changes [i] either. *)
Fixpoint ClosestStop_ids (fuel : nat) (currentIndex : Z) (route : Route)
    (ms : ModelService) (i : Z) (minDistance : R)
    (minDistanceStopIndex : Z) : res Z :=
  if (i <? len (StopIDs route))%Z then
    match fuel with
    | O => Spinning
    | S fuel' =>
        let j := 0%Z in
        let stops := ms_Stops ms in
        '(minDistance', minDistanceStopIndex') ←
          ClosestStop_stops fuel' currentIndex route stops i j
            minDistance minDistanceStopIndex;
        ClosestStop_ids fuel' currentIndex route ms i
          minDistance' minDistanceStopIndex'
    end
  else Ok minDistanceStopIndex.

Definition ClosestStop (fuel : nat) (currentIndex : Z) (route : Route)
    (ms : ModelService) : res Z :=
  ClosestStop_ids fuel currentIndex route ms 0 MaxFloat64 0.

Definition HeadingTowardTowardOrLeavingStop (currentIndex stopIndex : Z)
    (route : Route) (ms : ModelService) : res bool :=
  let stops := ms_Stops ms in
  stop ← item stops stopIndex;
  let stopRouteIndex :=
    ClosestPointTo (stop_Latitude stop) (stop_Longitude stop) route in
  if ((currentIndex <=? stopRouteIndex)
      && (stopRouteIndex - currentIndex <? len (Points route) `quot` 2))%Z
  then Ok true
  else if ((stopRouteIndex <? currentIndex)
           && (len (Points route) `quot` 2 <? currentIndex - stopRouteIndex))%Z
  then Ok true
  else Ok false.

(** The loop of [DistanceToPointAlongRoute], [for index != stopindex]. *)
Fixpoint DistanceToPointAlongRoute_loop (fuel : nat) (stopindex : Z)
    (route : Route) (index : Z) (elapsedDistance : R) : res R :=
  if (index =? stopindex)%Z then Ok elapsedDistance
  else
    match fuel with
    | O => Spinning
    | S fuel' =>
        let prevIndex := index in
        let index := (index + 1)%Z in
        let index := if (len (Points route) <=? index)%Z then 0%Z else index in
        p ← item (Points route) prevIndex;
        q ← item (Points route) index;
        DistanceToPointAlongRoute_loop fuel' stopindex route index
          (elapsedDistance + DistanceBetween p q)
    end.

Definition DistanceToPointAlongRoute (fuel : nat) (currentindex stopindex : Z)
    (route : Route) : res R :=
  DistanceToPointAlongRoute_loop fuel stopindex route currentindex 0.

(** The quotient by a zero [distance] is minus infinity, or NaN when the
    [velocity] is zero too. *)
Definition acceleration (velocity distance : R) : float64 :=
  if bool_decide (2 * distance = 0) then MinusInfOrNaN
  else Finite ((- velocity ^ 2) / (2 * distance)).

(** [d.Seconds()] for a [time.Duration]. *)
Definition Seconds (d : Z) : R := IZR d / 10 ^ 9.

(** [NaivePredictPosition] up to the loop: the closest point [index] and
    the distance [predictedDistance] that the loop is to cover.  [now] is
    the reading of the clock that [time.Since] takes. *)
Definition NaivePredictPosition_distance (fuel : nat) (lastUpdate : Location)
    (route : Route) (ms : ModelService) (now : time_Time)
    : res (Z * float64) :=
  let index :=
    ClosestPointTo (loc_Latitude lastUpdate) (loc_Longitude lastUpdate)
      route in
  stopIndex ← ClosestStop fuel index route ms;
  headingToward ← HeadingTowardTowardOrLeavingStop index stopIndex route ms;
  distanceToStop ← DistanceToPointAlongRoute fuel index stopIndex route;
  let secondsSinceUpdate := Seconds (now - loc_Time lastUpdate) in
  let predictedDistance := secondsSinceUpdate * loc_Speed lastUpdate in
  if headingToward && bool_decide (distanceToStop < 30) then
    match acceleration (loc_Speed lastUpdate) distanceToStop with
    | Finite a =>
        Ok (index,
            Finite (loc_Speed lastUpdate * secondsSinceUpdate
                    + / 2 * a * secondsSinceUpdate ^ 2))
    | _ => Ok (index, MinusInfOrNaN)
    end
  else Ok (index, Finite predictedDistance).

(** The loop of [NaivePredictPosition],
    [for elapsedDistance < predictedDistance]; the result is the pair of
    [index] and [angle] after the loop. *)
Fixpoint NaivePredictPosition_walk (fuel : nat) (route : Route)
    (predictedDistance : float64) (index : Z) (elapsedDistance angle : R)
    : res (Z * R) :=
  if below elapsedDistance predictedDistance then
    match fuel with
    | O => Spinning
    | S fuel' =>
        let prevIndex := index in
        let index := (index + 1)%Z in
        let index := if (len (Points route) <=? index)%Z then 0%Z else index in
        p ← item (Points route) prevIndex;
        q ← item (Points route) index;
        NaivePredictPosition_walk fuel' route predictedDistance index
          (elapsedDistance + DistanceBetween p q) (AngleBetween p q)
    end
  else Ok (index, angle).

(** The three pointers are dereferenced where the code first reads
    through them: [lastUpdate] and [route] on the first line of the body,
    [vehicle] in the [return]. *)
Definition NaivePredictPosition (fuel : nat) (vehicle : option Vehicle)
    (lastUpdate : option Location) (route : option Route)
    (ms : ModelService) (now : time_Time) : res Prediction :=
  lastUpdate ← deref lastUpdate;
  route ← deref route;
  '(index, predictedDistance) ←
    NaivePredictPosition_distance fuel lastUpdate route ms now;
  '(index, angle) ←
    NaivePredictPosition_walk fuel route predictedDistance index 0 0;
  vehicle ← deref vehicle;
  point ← item (Points route) index;
  Ok {| pred_VehicleID := vehicle_ID vehicle;
        pred_Point := point;
        pred_Index := index;
        pred_Angle := angle |}.

(** *** The route as the loop of [NaivePredictPosition] walks it *)

(** The index after [index]: the next one, and [0] after the last. *)
Definition next_index (route : Route) (index : Z) : Z :=
  if (len (Points route) <=? index + 1)%Z then 0%Z else (index + 1)%Z.

Definition point_at (route : Route) (index : Z) : Point :=
  default {| Latitude := 0; Longitude := 0 |}
    (Points route !! Z.to_nat index).

(** The index reached [k] points after [start]. *)
Fixpoint reached (route : Route) (start : Z) (k : nat) : Z :=
  match k with
  | O => start
  | S k' => next_index route (reached route start k')
  end.

(** The distance between the points number [k] and [k + 1] after [start],
    and the sum of the first [k] of them. *)
Definition leg (route : Route) (start : Z) (k : nat) : R :=
  DistanceBetween (point_at route (reached route start k))
    (point_at route (reached route start (S k))).

Fixpoint travelled (route : Route) (start : Z) (k : nat) : R :=
  match k with
  | O => 0
  | S k' => travelled route start k' + leg route start k'
  end.

(** The angle of the last of [k] legs, and [0] when there is none. *)
Definition heading (route : Route) (start : Z) (k : nat) : R :=
  match k with
  | O => 0
  | S k' =>
      AngleBetween (point_at route (reached route start k'))
        (point_at route (reached route start k))
  end.

End Geometry.

(** ** The state that both managers run in *)

(** A method runs on a state and leaves a state, also when it panics or
    does not come back. *)
Definition M (S A : Type) : Type := S → S * res A.

#[global] Instance M_ret {S} : MRet (M S) := fun A a s => (s, Ok a).
#[global] Instance M_bind {S} : MBind (M S) := fun A B f m s =>
  match m s with
  | (s', Ok a) => f a s'
  | (s', Panic) => (s', Panic)
  | (s', Spinning) => (s', Spinning)
  end.

Definition gets {S A} (f : S → A) : M S A := fun s => (s, Ok (f s)).
Definition modify {S} (f : S → S) : M S unit := fun s => (f s, Ok tt).
Definition lift {S A} (r : res A) : M S A := fun s => (s, r).
Definition when {S} (b : bool) (m : M S unit) : M S unit :=
  if b then m else mret tt.

(** What a manager does to the outside: [clock n] is the reading number [n]
    of the clock and [reads] the number of readings taken; [created] lists
    the calls of [CreateLocation] with whether each failed, [logged] the
    messages given to the log, and [called] the callbacks invoked, each a
    subscriber with the value it was given. *)
Record Env (P : Type) : Type := {
  clock : nat → time_Time;
  reads : nat;
  created : list (Location * bool);
  logged : list string;
  called : list (nat * P)
}.
Arguments clock {P} e n.
Arguments reads {P} e.
Arguments created {P} e.
Arguments logged {P} e.
Arguments called {P} e.

(** A manager [self] of type [C] and its outside. *)
Record World (C P : Type) : Type := { self : C; env : Env P }.
Arguments self {C P} w.
Arguments env {C P} w.

Section Runtime.
Context {C P : Type}.

Definition set_self (f : C → C) : M (World C P) unit :=
  modify (fun w => {| self := f (self w); env := env w |}).

Definition set_env (f : Env P → Env P) : M (World C P) unit :=
  modify (fun w => {| self := self w; env := f (env w) |}).

(** [time.Now()]. *)
Definition time_Now : M (World C P) time_Time :=
  now ← gets (fun w => clock (env w) (reads (env w)));
  set_env (fun e =>
    {| clock := clock e; reads := S (reads e); created := created e;
       logged := logged e; called := called e |});;
  mret now.

(** [ms.CreateLocation(&loc)]: the result tells whether [err != nil]. *)
Definition CreateLocation (ms : ModelService) (loc : Location)
    : M (World C P) bool :=
  n ← gets (fun w => length (created (env w)));
  let failed := ms_CreateLocation ms n loc in
  set_env (fun e =>
    {| clock := clock e; reads := reads e;
       created := created e ++ [(loc, failed)];
       logged := logged e; called := called e |});;
  mret failed.

(** A line given to package log. *)
Definition log (msg : string) : M (World C P) unit :=
  set_env (fun e =>
    {| clock := clock e; reads := reads e; created := created e;
       logged := logged e ++ [msg]; called := called e |}).

(** [sub(p)], or [go sub(p)], for a subscriber [sub]. *)
Definition call (sub : nat) (p : P) : M (World C P) unit :=
  set_env (fun e =>
    {| clock := clock e; reads := reads e; created := created e;
       logged := logged e; called := called e ++ [(sub, p)] |}).


(** [for _, x := range l { body(x) }]. *)
Fixpoint for_range {A} (l : list A) (body : A → M (World C P) unit)
    : M (World C P) unit :=
  match l with
  | [] => mret tt
  | x :: l' => body x;; for_range l' body
  end.

End Runtime.

(** ** The tracking manager: package smooth *)

Module Manager.
Import Geometry.

Record SmoothTrackingManager : Type := {
  ms : ModelService;
  predictions : gmap Z Prediction;
  predictionInterval : time_Time;
  predictUpdates : bool;
  updates : gmap Z Location;
  vehicleIDs : list Z;
  subscribers : list nat
}.

Record Config : Type := {
  PredictionInterval : string;
  PredictUpdates : bool
}.

Abbreviation world := (World SmoothTrackingManager Prediction).

Definition with_predictions (f : gmap Z Prediction → gmap Z Prediction)
    (stm : SmoothTrackingManager) : SmoothTrackingManager :=
  {| ms := ms stm; predictions := f (predictions stm);
     predictionInterval := predictionInterval stm;
     predictUpdates := predictUpdates stm; updates := updates stm;
     vehicleIDs := vehicleIDs stm; subscribers := subscribers stm |}.

Definition with_updates (f : gmap Z Location → gmap Z Location)
    (stm : SmoothTrackingManager) : SmoothTrackingManager :=
  {| ms := ms stm; predictions := predictions stm;
     predictionInterval := predictionInterval stm;
     predictUpdates := predictUpdates stm; updates := f (updates stm);
     vehicleIDs := vehicleIDs stm; subscribers := subscribers stm |}.

Definition with_vehicleIDs (f : list Z → list Z)
    (stm : SmoothTrackingManager) : SmoothTrackingManager :=
  {| ms := ms stm; predictions := predictions stm;
     predictionInterval := predictionInterval stm;
     predictUpdates := predictUpdates stm; updates := updates stm;
     vehicleIDs := f (vehicleIDs stm); subscribers := subscribers stm |}.

Definition with_subscribers (f : list nat → list nat)
    (stm : SmoothTrackingManager) : SmoothTrackingManager :=
  {| ms := ms stm; predictions := predictions stm;
     predictionInterval := predictionInterval stm;
     predictUpdates := predictUpdates stm; updates := updates stm;
     vehicleIDs := vehicleIDs stm; subscribers := f (subscribers stm) |}.

(** [NewManager]: [parsed] is what [time.ParseDuration] makes of
    [cfg.PredictionInterval], [None] for its error.  The caller registers
    [locationSubscriber] with the updater. *)
Definition NewManager (cfg : Config) (parsed : option time_Time)
    (ms0 : ModelService) : option SmoothTrackingManager :=
  interval ← parsed;
  Some {| ms := ms0; predictions := ∅; predictionInterval := interval;
          predictUpdates := PredictUpdates cfg; updates := ∅;
          vehicleIDs := []; subscribers := [] |}.

(** The first position of [id] in [ids], and [-1] when there is none. *)
Fixpoint position (ids : list Z) (id : Z) (i : Z) : Z :=
  match ids with
  | [] => (-1)%Z
  | id' :: ids' => if (id' =? id)%Z then i else position ids' id (i + 1)
  end.

Definition locationSubscriber (loc : option Location) : M world unit :=
  l ← lift (deref loc);
  match loc_VehicleID l with
  | None => mret tt
  | Some vehicleID =>
      set_self (with_updates <[vehicleID := l]>);;
      ids ← gets (fun w => vehicleIDs (self w));
      let index := position ids vehicleID 0 in
      match loc_RouteID l with
      | Some _ =>
          when (index <? 0)%Z
            (set_self (with_vehicleIDs (fun ids => ids ++ [vehicleID])))
      | None =>
          when (0 <=? index)%Z
            (set_self (with_vehicleIDs (fun ids =>
               match last ids with
               | Some final =>
                   take (length ids - 1) (<[Z.to_nat index := final]> ids)
               | None => ids
               end)))
      end;;
      prediction ← gets (fun w => predictions (self w) !! vehicleID);
      match prediction with
      | Some _ =>
          log "UPDATED VEHICLE %d";;
          log "Predicted: %d, (%f, %f)";;
          log "Actual: %d, (%f, %f)";;
          log "Difference: %d points or %f meters"
      | None => mret tt
      end
  end.

(** The call of [NaivePredictPosition] is written with three arguments in
    the file; the fourth, the model service, is the manager's. *)
Definition predictVehiclePosition (fuel : nat) (vehicleID : Z)
    : M world unit :=
  svc ← gets (fun w => ms (self w));
  let '(vehicle, err) := ms_Vehicle svc vehicleID in
  when err (log "cannot get vehicle for prediction");;
  v ← lift (deref vehicle);
  update ← gets (fun w => updates (self w) !! vehicle_ID v);
  when (bool_decide (update = None)) (log "no prior update for vehicle");;
  u ← lift (deref update);
  when (bool_decide (loc_RouteID u = None)) (log "no route for vehicle");;
  routeID ← lift (deref (loc_RouteID u));
  let '(route, err) := ms_Route svc routeID in
  when err (log "cannot get route for prediction");;
  since ← time_Now;
  prediction ← lift (NaivePredictPosition fuel vehicle update route svc since);
  now ← time_Now;
  r ← lift (deref route);
  let newUpdate :=
    {| loc_ID := 0;
       loc_TrackerID := loc_TrackerID u;
       loc_Latitude := Latitude (pred_Point prediction);
       loc_Longitude := Longitude (pred_Point prediction);
       loc_Heading := loc_Heading u;
       loc_Speed := loc_Speed u;
       loc_Time := now;
       loc_Created := zeroTime;
       loc_VehicleID := None;
       loc_RouteID := Some (route_ID r) |} in
  failed ← CreateLocation svc newUpdate;
  when failed (log "could not create location for prediction");;
  set_self (with_predictions <[vehicle_ID v := prediction]>).

(** One firing of the ticker in [Run]. *)
Definition tick (fuel : nat) : M world unit :=
  ids ← gets (fun w => vehicleIDs (self w));
  for_range ids (predictVehiclePosition fuel).

(** [Run] for the first [n] firings of the ticker. *)
Fixpoint ticks (fuel : nat) (n : nat) : M world unit :=
  match n with
  | O => mret tt
  | S n' => tick fuel;; ticks fuel n'
  end.

Definition Run (fuel : nat) (n : nat) : M world unit :=
  enabled ← gets (fun w => predictUpdates (self w));
  when enabled (ticks fuel n).

Definition handleNewPrediction (prediction : option Prediction)
    : M world unit :=
  p ← lift (deref prediction);
  set_self (with_predictions <[pred_VehicleID p := p]>);;
  subs ← gets (fun w => subscribers (self w));
  for_range subs (fun sub => call sub p).

Definition Subscribe (sub : nat) : M world unit :=
  set_self (with_subscribers (fun subs => subs ++ [sub])).

(** *** What a step of the manager leaves *)

(** The location that [predictVehiclePosition] builds from the last update
    [u], the route [r], the prediction [p] and the reading [now] of the
    clock. *)
Definition derived (u : Location) (r : Route) (p : Prediction)
    (now : time_Time) : Location :=
  {| loc_ID := 0;
     loc_TrackerID := loc_TrackerID u;
     loc_Latitude := Latitude (pred_Point p);
     loc_Longitude := Longitude (pred_Point p);
     loc_Heading := loc_Heading u;
     loc_Speed := loc_Speed u;
     loc_Time := now;
     loc_Created := zeroTime;
     loc_VehicleID := None;
     loc_RouteID := Some (route_ID r) |}.

(** The state after a step that found the vehicle [v], its update [u] and
    the route [r], computed [p], and whose two lookups had the errors [e1]
    and [e2]. *)
Definition after_prediction (w : world) (v : Vehicle) (u : Location)
    (r : Route) (p : Prediction) (e1 e2 : bool) : world :=
  let newUpdate := derived u r p (clock (env w) (S (reads (env w)))) in
  let failed :=
    ms_CreateLocation (ms (self w)) (length (created (env w))) newUpdate in
  {| self := with_predictions <[vehicle_ID v := p]> (self w);
     env :=
       {| clock := clock (env w);
          reads := S (S (reads (env w)));
          created := created (env w) ++ [(newUpdate, failed)];
          logged :=
            logged (env w)
            ++ (if e1 then ["cannot get vehicle for prediction"%string]
                else [])
            ++ (if e2 then ["cannot get route for prediction"%string]
                else [])
            ++ (if failed
                then ["could not create location for prediction"%string]
                else []);
          called := called (env w) |} |}.

(** From [w] to [w'] the clock has been read and the log written to, and
    nothing else. *)
Definition only_logged (w w' : world) : Prop :=
  self w' = self w ∧ clock (env w') = clock (env w)
  ∧ created (env w') = created (env w) ∧ called (env w') = called (env w).

(** [loc] is a location that a step builds in [w]: from an update [u]
    that the manager holds, a route that the service has for the route id
    of [u], a prediction and a reading of the clock. *)
Definition built_in (w : world) (loc : Location) : Prop :=
  ∃ (k : Z) (u : Location) (rid : Z) (r : Route) (e : bool)
    (p : Prediction) (n : nat),
    updates (self w) !! k = Some u
    ∧ loc_RouteID u = Some rid
    ∧ ms_Route (ms (self w)) rid = (Some r, e)
    ∧ loc = derived u r p (clock (env w) n).

(** *** The active vehicles *)

(** The list of active vehicles that [locationSubscriber] leaves for a
    location of the vehicle [vehicleID] with the route id [routeID]. *)
Definition active_after (ids : list Z) (vehicleID : Z) (routeID : option Z)
    : list Z :=
  let index := position ids vehicleID 0 in
  match routeID with
  | Some _ => if (index <? 0)%Z then ids ++ [vehicleID] else ids
  | None =>
      if (0 <=? index)%Z then
        match last ids with
        | Some final =>
            take (length ids - 1) (<[Z.to_nat index := final]> ids)
        | None => ids
        end
      else ids
  end.

(** The active vehicles are, each once, the vehicles whose last location
    has a route id. *)
Definition mirrors (stm : SmoothTrackingManager) : Prop :=
  NoDup (vehicleIDs stm)
  ∧ ∀ v : Z, v ∈ vehicleIDs stm
             ↔ ∃ u : Location, updates stm !! v = Some u
                               ∧ loc_RouteID u ≠ None.

(** The manager that [NewManager] makes, before anything has run. *)
Definition fresh (svc : ModelService) (enabled : bool) : world :=
  {| self :=
       {| ms := svc; predictions := ∅; predictionInterval := 1000;
          predictUpdates := enabled; updates := ∅; vehicleIDs := [];
          subscribers := [] |};
     env :=
       {| clock := fun n => (1000 + Z.of_nat n)%Z; reads := 0;
          created := []; logged := []; called := [] |} |}.

End Manager.

(** ** The replay engine: package spoofer *)

Module Spoofer.

Record Spoofer : Type := {
  spoofInterval : time_Time;
  SpoofUpdates : bool;
  spoofIndexes : gmap Z Z;
  updates : gmap Z (list Location);
  updateID : Z;
  ms : ModelService;
  subscribers : list nat
}.

Record Config : Type := {
  cfg_SpoofUpdates : bool;
  cfg_SpoofInterval : string
}.

Abbreviation world := (World Spoofer Location).

(** The [int64] that Go keeps of an integer. *)
Definition wrap64 (z : Z) : Z := ((z + 2 ^ 63) `mod` 2 ^ 64 - 2 ^ 63)%Z.

Definition with_spoofIndexes (f : gmap Z Z → gmap Z Z) (s : Spoofer)
    : Spoofer :=
  {| spoofInterval := spoofInterval s; SpoofUpdates := SpoofUpdates s;
     spoofIndexes := f (spoofIndexes s); updates := updates s;
     updateID := updateID s; ms := ms s; subscribers := subscribers s |}.

Definition with_updates
    (f : gmap Z (list Location) → gmap Z (list Location)) (s : Spoofer)
    : Spoofer :=
  {| spoofInterval := spoofInterval s; SpoofUpdates := SpoofUpdates s;
     spoofIndexes := spoofIndexes s; updates := f (updates s);
     updateID := updateID s; ms := ms s; subscribers := subscribers s |}.

Definition with_updateID (f : Z → Z) (s : Spoofer) : Spoofer :=
  {| spoofInterval := spoofInterval s; SpoofUpdates := SpoofUpdates s;
     spoofIndexes := spoofIndexes s; updates := updates s;
     updateID := f (updateID s); ms := ms s; subscribers := subscribers s |}.

Definition with_subscribers (f : list nat → list nat) (s : Spoofer)
    : Spoofer :=
  {| spoofInterval := spoofInterval s; SpoofUpdates := SpoofUpdates s;
     spoofIndexes := spoofIndexes s; updates := updates s;
     updateID := updateID s; ms := ms s; subscribers := f (subscribers s) |}.

(** [New]: [parsed] is what [time.ParseDuration] makes of
    [cfg.SpoofInterval], [None] for its error. *)
Definition New (cfg : Config) (parsed : option time_Time)
    (ms0 : ModelService) : option Spoofer :=
  interval ← parsed;
  Some {| spoofInterval := interval; SpoofUpdates := cfg_SpoofUpdates cfg;
          spoofIndexes := ∅; updates := ∅; updateID := 1; ms := ms0;
          subscribers := [] |}.

(** An entry of the directory spoof_data as [parseUpdates] sees it:
    whether it is a directory, whether its name ends in a dot followed by
    json, whether opening it and reading it fail, and the locations that
    [json.Unmarshal] makes of its bytes. *)
Record SpoofFile : Type := {
  file_IsDir : bool;
  file_json : bool;
  file_open_fails : bool;
  file_read_fails : bool;
  file_updates : list Location
}.

(** The [range] loop of [parseUpdates] over the entries of the directory:
    an entry that cannot be opened ends the method. *)
Fixpoint parseUpdates_range (files : list SpoofFile) : M world unit :=
  match files with
  | [] => mret tt
  | f :: files' =>
      if negb (file_IsDir f) && file_json f then
        if file_open_fails f then log "Error opening spoof data file %s"
        else
          when (file_read_fails f) (log "Error reading spoof file %s");;
          let updates' := file_updates f in
          match updates' with
          | [] =>
              log "Read %d updates from spoof file %s";;
              parseUpdates_range files'
          | first :: _ =>
              match loc_VehicleID first with
              | None =>
                  log "Missing vehicle ID from spoof file %s";;
                  parseUpdates_range files'
              | Some vehicleID =>
                  set_self (with_updates <[vehicleID := updates']>);;
                  set_self (with_spoofIndexes <[vehicleID := 0%Z]>);;
                  log "Read %d updates from spoof file %s";;
                  parseUpdates_range files'
              end
          end
      else parseUpdates_range files'
  end.

(** [parseUpdates]: [listing] is the directory spoof_data, [None] when the
    working directory or the directory cannot be read. *)
Definition parseUpdates (listing : option (list SpoofFile)) : M world unit :=
  match listing with
  | None => log "Error finding spoof files"
  | Some files => parseUpdates_range files
  end.

Definition Subscribe (f : nat) : M world unit :=
  set_self (with_subscribers (fun subs => subs ++ [f])).

(** [notifySubscribers] starts every callback with [go]: [called] lists
    the callbacks in the order in which they are started, which is not an
    order in which they run. *)
Definition notifySubscribers (loc : Location) : M world unit :=
  subs ← gets (fun w => subscribers (self w));
  for_range subs (fun sub => call sub loc).

(** [s.spoofIndexes[vehicleID]], which is [0] for a key that is absent. *)
Definition cursor (s : Spoofer) (vehicleID : Z) : Z :=
  default 0%Z (spoofIndexes s !! vehicleID).

(** The body of the loop of [spoof] for one entry of [s.updates]; the
    result tells whether the loop goes on ([false] is the [return]). *)
Definition spoof_body (vehicleID : Z) (updates' : list Location)
    : M world bool :=
  i ← gets (fun w => cursor (self w) vehicleID);
  update ← lift (item updates' i);
  created' ← time_Now;
  now ← time_Now;
  id ← gets (fun w => updateID (self w));
  svc ← gets (fun w => ms (self w));
  let update :=
    {| loc_ID := id;
       loc_TrackerID := loc_TrackerID update;
       loc_Latitude := loc_Latitude update;
       loc_Longitude := loc_Longitude update;
       loc_Heading := loc_Heading update;
       loc_Speed := loc_Speed update;
       loc_Time := now;
       loc_Created := created';
       loc_VehicleID := loc_VehicleID update;
       loc_RouteID := loc_RouteID update |} in
  failed ← CreateLocation svc update;
  if failed : bool then
    log "Could not create spoofed location for vehicle %d";;
    mret false
  else
    log "Spoofed location for vehicle %d";;
    notifySubscribers update;;
    set_self (with_spoofIndexes (fun m =>
      <[vehicleID := (default 0 (m !! vehicleID) + 1)%Z]> m));;
    i' ← gets (fun w => cursor (self w) vehicleID);
    when (len updates' <=? i')%Z
      (set_self (with_spoofIndexes <[vehicleID := 0%Z]>));;
    set_self (with_updateID (fun n => wrap64 (n + 1)));;
    mret true.

(** The loop of [spoof], [for vehicleID, updates := range s.updates],
    visiting the keys in the order [order]; an entry of [order] that is
    not a key of the map is passed over. *)
Fixpoint spoof_range (order : list Z) : M world unit :=
  match order with
  | [] => mret tt
  | vehicleID :: order' =>
      entry ← gets (fun w => updates (self w) !! vehicleID);
      match entry with
      | None => spoof_range order'
      | Some updates' =>
          continue ← spoof_body vehicleID updates';
          if continue : bool then spoof_range order' else mret tt
      end
  end.

Definition spoof (order : list Z) : M world unit := spoof_range order.

(** [Run] for the steps whose orders of visit are [orders]: the first is
    the initial step, the others those of the ticker. *)
Definition Run (listing : option (list SpoofFile)) (orders : list (list Z))
    : M world unit :=
  enabled ← gets (fun w => SpoofUpdates (self w));
  when enabled
    (log "Spoofer started.";;
     parseUpdates listing;;
     for_range orders spoof).

(** *** What a step of the replay engine leaves *)

(** The recorded location [update] with the id [id] and the two readings
    of the clock. *)
Definition spoofed (update : Location) (id : Z) (created' now : time_Time)
    : Location :=
  {| loc_ID := id;
     loc_TrackerID := loc_TrackerID update;
     loc_Latitude := loc_Latitude update;
     loc_Longitude := loc_Longitude update;
     loc_Heading := loc_Heading update;
     loc_Speed := loc_Speed update;
     loc_Time := now;
     loc_Created := created';
     loc_VehicleID := loc_VehicleID update;
     loc_RouteID := loc_RouteID update |}.

(** The location that the body of the loop makes of [update] in [w]. *)
Definition emitted (w : world) (update : Location) : Location :=
  spoofed update (updateID (self w)) (clock (env w) (reads (env w)))
    (clock (env w) (S (reads (env w)))).

(** The cursor after [c] in a sequence of length [n]. *)
Definition advance (n c : Z) : Z := if (n <=? c + 1)%Z then 0%Z else (c + 1)%Z.

(** The state after the body has failed to persist [update], and after it
    has persisted it for [vehicleID], whose sequence has the length [n]. *)
Definition after_failure (w : world) (update : Location) : world :=
  {| self := self w;
     env :=
       {| clock := clock (env w);
          reads := S (S (reads (env w)));
          created := created (env w) ++ [(emitted w update, true)];
          logged :=
            logged (env w)
            ++ ["Could not create spoofed location for vehicle %d"%string];
          called := called (env w) |} |}.

Definition after_spoof (w : world) (vehicleID : Z) (n : Z)
    (update : Location) : world :=
  {| self :=
       with_updateID (fun id => wrap64 (id + 1))
         (with_spoofIndexes
            <[vehicleID := advance n (cursor (self w) vehicleID)]> (self w));
     env :=
       {| clock := clock (env w);
          reads := S (S (reads (env w)));
          created := created (env w) ++ [(emitted w update, false)];
          logged :=
            logged (env w) ++ ["Spoofed location for vehicle %d"%string];
          called :=
            called (env w)
            ++ map (fun sub => (sub, emitted w update))
                 (subscribers (self w)) |} |}.

(** The cursors are within their sequences. *)
Definition cursors_within (s : Spoofer) : Prop :=
  ∀ (vehicleID : Z) (updates' : list Location),
    updates s !! vehicleID = Some updates' →
    (0 ≤ cursor s vehicleID < len updates')%Z.

(** Every cursor is at 0, on a sequence that is not empty. *)
Definition at_start (s : Spoofer) : Prop :=
  ∀ (vehicleID : Z) (updates' : list Location),
    updates s !! vehicleID = Some updates' →
    cursor s vehicleID = 0%Z ∧ (0 < len updates')%Z.

(** [order] is an order in which [range] may visit the map [s.updates]:
    every key once. *)
Definition visits (s : Spoofer) (order : list Z) : Prop :=
  NoDup order ∧ ∀ vehicleID : Z, vehicleID ∈ order ↔ is_Some (updates s !! vehicleID).

(** [parseUpdates] reads the entry [f]: it is a file whose name ends in a
    dot followed by json. *)
Definition loadable (f : SpoofFile) : bool :=
  negb (file_IsDir f) && file_json f.

(** The state with one more line in the log. *)
Definition noted (msg : string) (w : world) : world :=
  {| self := self w;
     env :=
       {| clock := clock (env w); reads := reads (env w);
          created := created (env w); logged := logged (env w) ++ [msg];
          called := called (env w) |} |}.

(** The state after [parseUpdates] has read the entry [f], which it could
    open. *)
Definition after_file (f : SpoofFile) (w : world) : world :=
  let w1 :=
    if file_read_fails f then noted "Error reading spoof file %s" w else w in
  match file_updates f with
  | [] => noted "Read %d updates from spoof file %s" w1
  | first :: _ =>
      match loc_VehicleID first with
      | None => noted "Missing vehicle ID from spoof file %s" w1
      | Some vehicleID =>
          noted "Read %d updates from spoof file %s"
            {| self :=
                 with_spoofIndexes <[vehicleID := 0%Z]>
                   (with_updates <[vehicleID := file_updates f]> (self w1));
               env := env w1 |}
      end
  end.

(** The recorded locations that a step visiting [order] finds under the
    cursors. *)
Definition due (s : Spoofer) (order : list Z) : list Location :=
  omap (fun vehicleID =>
          match updates s !! vehicleID with
          | Some updates' =>
              match item updates' (cursor s vehicleID) with
              | Ok update => Some update
              | _ => None
              end
          | None => None
          end) order.

(** The recorded locations [us] with the ids from [id] on and the
    readings of the clock from the reading number [n] on, two for each. *)
Fixpoint stamped (clock : nat → time_Time) (id : Z) (n : nat)
    (us : list Location) : list Location :=
  match us with
  | [] => []
  | update :: us' =>
      spoofed update id (clock n) (clock (S n))
      :: stamped clock (id + 1) (S (S n)) us'
  end.

(** The service of the engine never fails to persist. *)
Definition persists_all (s : Spoofer) : Prop :=
  ∀ (n : nat) (loc : Location), ms_CreateLocation (ms s) n loc = false.



End Spoofer.

(** ** Routes, services and states that the properties are tried on *)

Module Samples.
Import Geometry.
Local Open Scope R_scope.

Definition origin : Point := {| Latitude := 0; Longitude := 0 |}.
Definition east : Point := {| Latitude := 0; Longitude := 1 |}.
Definition north_east : Point := {| Latitude := 1; Longitude := 1 |}.
Definition north : Point := {| Latitude := 1; Longitude := 0 |}.

(** A loop of four points, the corners of a square of one degree. *)
Definition square : Route :=
  {| route_ID := 1; Points := [origin; east; north_east; north];
     StopIDs := [] |}.

(** A route of one point with one stop, and a service whose only stop is
    another one. *)
Definition one_stop : Route :=
  {| route_ID := 1; Points := [origin]; StopIDs := [1%Z] |}.

Definition other_stop : ModelService :=
  {| ms_Vehicle := fun _ => (None, true);
     ms_Route := fun _ => (None, true);
     ms_Stops := [{| stop_ID := 2; stop_Latitude := 0; stop_Longitude := 0 |}];
     ms_CreateLocation := fun _ _ => false |}.

(** A route of one point without stops, and a service that knows the
    vehicles 1 and 2, that route and one stop; [fails] tells which calls
    of [CreateLocation] fail. *)
Definition depot : Route :=
  {| route_ID := 1; Points := [origin]; StopIDs := [] |}.

Definition campus (fails : nat → bool) : ModelService :=
  {| ms_Vehicle := fun id =>
       if ((id =? 1) || (id =? 2))%Z then (Some {| vehicle_ID := id |}, false)
       else (None, true);
     ms_Route := fun id =>
       if (id =? 1)%Z then (Some depot, false) else (None, true);
     ms_Stops := [{| stop_ID := 1; stop_Latitude := 0; stop_Longitude := 0 |}];
     ms_CreateLocation := fun n _ => fails n |}.

(** A service that knows vehicle 1 on the square and whose only stop is at
    the far corner of the square; a route whose first two points are the
    same; and a location observed at the origin for a vehicle with the
    speed [speed]. *)
Definition town : ModelService :=
  {| ms_Vehicle := fun id =>
       if (id =? 1)%Z then (Some {| vehicle_ID := id |}, false)
       else (None, true);
     ms_Route := fun id =>
       if (id =? 1)%Z then (Some square, false) else (None, true);
     ms_Stops := [{| stop_ID := 1; stop_Latitude := 1; stop_Longitude := 1 |}];
     ms_CreateLocation := fun _ _ => false |}.

Definition doubled : Route :=
  {| route_ID := 1; Points := [origin; origin; north_east]; StopIDs := [] |}.

Definition leaving (speed : R) : Location :=
  {| loc_ID := 41;
     loc_TrackerID := "tracker";
     loc_Latitude := 0;
     loc_Longitude := 0;
     loc_Heading := 90;
     loc_Speed := speed;
     loc_Time := 0%Z;
     loc_Created := 0%Z;
     loc_VehicleID := Some 1%Z;
     loc_RouteID := Some 1%Z |}.

(** No call fails; only the first call fails. *)
Definition never : nat → bool := fun _ => false.
Definition at_first : nat → bool := fun n => bool_decide (n = 0%nat).

(** A location observed for a vehicle standing at the origin, on route 1. *)

Definition seen (vehicleID : Z) : Location :=
  {| loc_ID := 40 + vehicleID;
     loc_TrackerID := "tracker";
     loc_Latitude := 0;
     loc_Longitude := 0;
     loc_Heading := 90;
     loc_Speed := 0;
     loc_Time := 0%Z;
     loc_Created := 0%Z;
     loc_VehicleID := Some vehicleID;
     loc_RouteID := Some 1%Z |}.

(** The prediction for a vehicle standing at the origin. *)
Definition parked (vehicleID : Z) : Prediction :=
  {| pred_VehicleID := vehicleID; pred_Point := origin; pred_Index := 0;
     pred_Angle := 0 |}.

(** The outside before anything has run: the clock reads 1000, 1001 and
    so on. *)
Definition quiet {P} : Env P :=
  {| clock := fun n => (1000 + Z.of_nat n)%Z; reads := 0; created := [];
     logged := []; called := [] |}.

(** A manager on the service [svc] with the subscriber 7, after it has
    seen the vehicles [ids] on route 1. *)
Definition tracking (svc : ModelService) (ids : list Z)
    : World Manager.SmoothTrackingManager Prediction :=
  {| self :=
       {| Manager.ms := svc;
          Manager.predictions := ∅;
          Manager.predictionInterval := 1000;
          Manager.predictUpdates := true;
          Manager.updates :=
            foldl (fun m id => <[id := seen id]> m) ∅ ids;
          Manager.vehicleIDs := ids;
          Manager.subscribers := [7%nat] |};
     env := quiet |}.

(** Recordings: the place number [i] of the recording of [vehicleID], and
    an engine on the service [svc] with the subscriber 7 that has loaded
    three places for vehicle 7 and one for vehicle 8. *)
Definition place (vehicleID : Z) (i : Z) : Location :=
  {| loc_ID := i;
     loc_TrackerID := "recorded";
     loc_Latitude := IZR i;
     loc_Longitude := 0;
     loc_Heading := 0;
     loc_Speed := 5;
     loc_Time := 0%Z;
     loc_Created := 0%Z;
     loc_VehicleID := Some vehicleID;
     loc_RouteID := Some 1%Z |}.

Definition recordings : list Spoofer.SpoofFile :=
  [ {| Spoofer.file_IsDir := false; Spoofer.file_json := true;
       Spoofer.file_open_fails := false; Spoofer.file_read_fails := false;
       Spoofer.file_updates := [place 7 1; place 7 2; place 7 3] |};
    {| Spoofer.file_IsDir := false; Spoofer.file_json := true;
       Spoofer.file_open_fails := false; Spoofer.file_read_fails := false;
       Spoofer.file_updates := [place 8 1] |} ].

Definition loaded {P} : Env P :=
  {| clock := fun n => (1000 + Z.of_nat n)%Z; reads := 0; created := [];
     logged := ["Read %d updates from spoof file %s"%string;
                "Read %d updates from spoof file %s"%string];
     called := [] |}.

Definition replaying (svc : ModelService)
    : World Spoofer.Spoofer Location :=
  {| self :=
       {| Spoofer.spoofInterval := 1000;
          Spoofer.SpoofUpdates := true;
          Spoofer.spoofIndexes := <[8%Z := 0%Z]> (<[7%Z := 0%Z]> ∅);
          Spoofer.updates :=
            <[8%Z := [place 8 1]]>
              (<[7%Z := [place 7 1; place 7 2; place 7 3]]> ∅);
          Spoofer.updateID := 1;
          Spoofer.ms := svc;
          Spoofer.subscribers := [7%nat] |};
     env := loaded |}.

End Samples.

(** * Properties *)

Lemma item_in_range {A} (l : list A) (i : Z) :
  (0 ≤ i < len l)%Z → ∃ a, item l i = Ok a.
Proof.
  intros [Hlo Hhi]. unfold item, len in *.
  destruct (Z.ltb_spec i 0); [lia|].
  destruct (l !! Z.to_nat i) as [a|] eqn:E; [now exists a|].
  apply lookup_ge_None in E. lia.
Qed.


(** ** The geometry *)

Section GeometryFacts.
Import Geometry Samples.
Local Open Scope R_scope.

Lemma Atan2_bound (y x : R) : - PI <= Atan2 y x <= PI.
Proof.
  unfold Atan2.
  pose proof PI_RGT_0 as Hpi.
  pose proof (atan_bound (y / x)) as Hb.
  destruct (Rlt_dec 0 x) as [Hx|Hx]; [lra|].
  destruct (Rlt_dec x 0) as [Hx'|Hx'].
  - destruct (Rle_dec 0 y) as [Hy|Hy].
    + assert (atan (y / x) <= 0); [|lra].
      destruct (Req_dec y 0) as [->|Hy0].
      * unfold Rdiv. rewrite Rmult_0_l, atan_0. lra.
      * rewrite <- atan_0. left. apply atan_increasing.
        pose proof (Rinv_lt_0_compat x Hx'). unfold Rdiv. nra.
    + assert (0 < atan (y / x)); [|lra].
      rewrite <- atan_0. apply atan_increasing.
      pose proof (Rinv_lt_0_compat x Hx'). unfold Rdiv. nra.
  - destruct (Rlt_dec 0 y); [lra|]. destruct (Rlt_dec y 0); lra.
Qed.

Lemma Mod_bound (x y : R) : 0 <= x → 0 < y → 0 <= Mod x y < y.
Proof.
  intros Hx Hy. unfold Mod, Trunc.
  assert (0 <= x / y) as Hq.
  { unfold Rdiv. apply Rmult_le_pos; [lra|]. left. now apply Rinv_0_lt_compat. }
  destruct (Rle_dec 0 (x / y)) as [_|?]; [|lra].
  destruct (base_Int_part (x / y)) as [Hlo Hhi].
  assert (x = y * (x / y)) as Hxy by (field; lra).
  set (n := IZR (Int_part (x / y))) in *.
  set (q := x / y) in *.
  split; nra.
Qed.

Lemma toDegrees_bound (a : R) : - PI <= a <= PI → -180 <= toDegrees a <= 180.
Proof.
  intros [Hlo Hhi]. unfold toDegrees.
  pose proof PI_RGT_0 as Hpi.
  assert (a * 180 / PI = 180 * (a / PI)) as -> by (field; lra).
  assert (-1 <= a / PI <= 1); [|lra].
  split.
  - apply Rmult_le_reg_r with PI; [lra|].
    unfold Rdiv. rewrite Rmult_assoc, Rinv_l; lra.
  - apply Rmult_le_reg_r with PI; [lra|].
    unfold Rdiv. rewrite Rmult_assoc, Rinv_l; lra.
Qed.

Lemma asin_pos (x : R) : 0 < x → 0 < asin x.
Proof.
  intros Hx. unfold asin. pose proof PI_RGT_0.
  destruct (Rle_dec x (-1)); [lra|].
  destruct (Rle_dec 1 x); [lra|].
  rewrite <- atan_0. apply atan_increasing.
  assert (0 < sqrt (1 - x²)).
  { apply sqrt_lt_R0. unfold Rsqr. nra. }
  unfold Rdiv. apply Rmult_lt_0_compat; [lra|]. now apply Rinv_0_lt_compat.
Qed.

Lemma asin_nonneg (x : R) : 0 <= x → 0 <= asin x.
Proof.
  intros [Hx| <-]; [left; now apply asin_pos|]. rewrite asin_0. lra.
Qed.

Lemma cos_lt_1 (x : R) : 0 < x < PI → cos x < 1.
Proof.
  intros [Hlo Hhi]. pose proof (sin_gt_0 x Hlo Hhi) as Hs.
  pose proof (sin2_cos2 x) as Hsc. unfold Rsqr in Hsc. nra.
Qed.

Lemma DistanceBetween_nonneg (p1 p2 : Point) : 0 <= DistanceBetween p1 p2.
Proof.
  unfold DistanceBetween, earthRadius.
  match goal with |- context [asin ?a] =>
    pose proof (asin_nonneg a (sqrt_pos _)) end.
  nra.
Qed.

Lemma DistanceBetween_same (p : Point) : DistanceBetween p p = 0.
Proof.
  unfold DistanceBetween, haversine.
  rewrite !Rminus_diag, cos_0.
  replace ((1 - 1) / 2 + _) with 0 by (unfold Rdiv; ring).
  rewrite sqrt_0, asin_0. ring.
Qed.

Lemma DistanceBetween_origin_east : 0 < DistanceBetween origin east.
Proof.
  unfold DistanceBetween, origin, east, toRadians, haversine, earthRadius.
  simpl.
  replace (0 * PI / 180) with 0 by (unfold Rdiv; ring).
  rewrite !Rminus_0_r, cos_0.
  assert (cos (1 * PI / 180) < 1) as Hc.
  { pose proof PI_RGT_0. apply cos_lt_1. lra. }
  match goal with |- context [asin ?a] =>
    assert (0 < asin a) end; [|nra].
  apply asin_pos, sqrt_lt_R0. lra.
Qed.

Lemma AngleBetween_origin : AngleBetween origin origin = -45.
Proof.
  unfold AngleBetween, origin, toRadians; simpl.
  assert (0 * PI / 180 = 0) as -> by (unfold Rdiv; ring).
  rewrite Rminus_diag, sin_0, cos_0.
  assert (0 * 1 = 0) as -> by ring.
  assert (1 * 0 - 0 * 1 = 0) as -> by ring.
  assert (Atan2 0 0 = 0) as ->.
  { unfold Atan2.
    destruct (Rlt_dec 0 0); [lra|]. destruct (Rlt_dec 0 0); [lra|]. easy. }
  assert (toDegrees 0 = 0) as -> by (unfold toDegrees, Rdiv; ring).
  unfold Mod, Trunc.
  assert ((0 + 360) / 360 = 1) as -> by field.
  destruct (Rle_dec 0 1); [|lra].
  assert (Int_part 1 = 1%Z) as ->.
  { symmetry. apply Int_part_spec. simpl. lra. }
  simpl. lra.
Qed.

(** C6, as amended.  For every pair of points [AngleBetween] returns a
    value from -45 (included) to 315 (excluded): the forward azimuth
    reduced modulo 360, which lies from 0 to 360, minus the fixed 45. *)
Theorem AngleBetween_range (p1 p2 : Point) :
  -45 <= AngleBetween p1 p2 < 315.
Proof.
  unfold AngleBetween.
  match goal with
  | |- context [toDegrees (Atan2 ?y ?x)] =>
      pose proof (toDegrees_bound _ (Atan2_bound y x)) as Hd;
      set (d := toDegrees (Atan2 y x)) in *
  end.
  assert (0 <= Mod (d + 360) 360 < 360) by (apply Mod_bound; lra).
  lra.
Qed.

(** C6, as stated, fails: the bearing from a point to itself is -45, which
    is not in the interval from 0 to 360. *)
Lemma AngleBetween_below_zero :
  ¬ (0 <= AngleBetween origin origin < 360).
Proof. rewrite AngleBetween_origin. lra. Qed.

(** *** [ClosestStop] *)

Lemma ClosestStop_ids_not_Ok (fuel : nat) (currentIndex : Z) (route : Route)
    (ms : ModelService) (minDistance : R) (minDistanceStopIndex : Z) :
  StopIDs route ≠ [] →
  ¬ is_Ok (ClosestStop_ids fuel currentIndex route ms 0 minDistance
             minDistanceStopIndex).
Proof.
  intros Hne.
  assert ((0 <? len (StopIDs route))%Z = true) as Hlen.
  { apply Z.ltb_lt. destruct (StopIDs route); [done|].
    unfold len; simpl length; lia. }
  revert minDistance minDistanceStopIndex.
  induction fuel as [|fuel IH]; intros m k [z Hz]; simpl in Hz;
    rewrite Hlen in Hz; [discriminate|].
  destruct (ClosestStop_stops fuel currentIndex route (ms_Stops ms) 0 0 m k)
    as [[m' k']| |]; simpl in Hz; try discriminate.
  apply (IH m' k'). now exists z.
Qed.

(** Whatever the route, the stops and the fuel: a route that lists a stop
    makes [ClosestStop] panic or run on. *)
Lemma ClosestStop_not_Ok (fuel : nat) (currentIndex : Z) (route : Route)
    (ms : ModelService) :
  StopIDs route ≠ [] → ¬ is_Ok (ClosestStop fuel currentIndex route ms).
Proof. apply ClosestStop_ids_not_Ok. Qed.

Lemma ClosestStop_no_stop_id (fuel : nat) (currentIndex : Z) (route : Route)
    (ms : ModelService) :
  StopIDs route = [] → ClosestStop fuel currentIndex route ms = Ok 0%Z.
Proof.
  intros H. unfold ClosestStop. destruct fuel; simpl; now rewrite H.
Qed.

(** C1, on the code: with a route that lists the stop 1 and a stop
    collection that holds only the stop 2, [ClosestStop] is still running
    when the fuel is spent, however much fuel it is given. *)
Theorem ClosestStop_spins_on_absent_stop (fuel : nat) :
  ClosestStop fuel 0 one_stop other_stop = Spinning.
Proof.
  unfold ClosestStop.
  assert (∀ f m k, ClosestStop_stops f 0 one_stop (ms_Stops other_stop)
                     0 0 m k = Spinning) as Hin.
  { induction f as [|f IH]; intros m k; [reflexivity|].
    cbn -[MaxFloat64]. apply IH. }
  destruct fuel as [|fuel]; [reflexivity|].
  cbn -[MaxFloat64 ClosestStop_stops]. now rewrite Hin.
Qed.

End GeometryFacts.

(** ** The forward walk of [NaivePredictPosition] *)

Section WalkFacts.
Import Geometry Samples.
Local Open Scope R_scope.

Lemma item_point_at (route : Route) (i : Z) :
  (0 ≤ i < len (Points route))%Z →
  item (Points route) i = Ok (point_at route i).
Proof.
  intros [Hlo Hhi]. unfold item, point_at, len in *.
  destruct (Z.ltb_spec i 0); [lia|].
  destruct (Points route !! Z.to_nat i) eqn:E; [reflexivity|].
  apply lookup_ge_None in E. lia.
Qed.

Lemma next_index_range (route : Route) (i : Z) :
  (0 ≤ i < len (Points route))%Z →
  (0 ≤ next_index route i < len (Points route))%Z.
Proof. unfold next_index. intros H. case_match; lia. Qed.

Lemma reached_range (route : Route) (start : Z) (k : nat) :
  (0 ≤ start < len (Points route))%Z →
  (0 ≤ reached route start k < len (Points route))%Z.
Proof.
  intros H. induction k as [|k IH]; [exact H|].
  simpl. now apply next_index_range.
Qed.

(** One turn of the loop, from the state that [j] legs leave. *)
Lemma walk_step (fuel : nat) (route : Route) (start : Z) (pd : R) (j : nat) :
  (0 ≤ start < len (Points route))%Z →
  travelled route start j < pd →
  NaivePredictPosition_walk (S fuel) route (Finite pd)
    (reached route start j) (travelled route start j)
    (heading route start j)
  = NaivePredictPosition_walk fuel route (Finite pd)
      (reached route start (S j)) (travelled route start (S j))
      (heading route start (S j)).
Proof.
  intros Hs Hlt. simpl NaivePredictPosition_walk at 1.
  rewrite bool_decide_eq_true_2 by exact Hlt.
  fold (next_index route (reached route start j)).
  rewrite (item_point_at route (reached route start j))
    by now apply reached_range.
  rewrite (item_point_at route (next_index route (reached route start j)))
    by now apply next_index_range, reached_range.
  reflexivity.
Qed.

Lemma walk_from (route : Route) (start : Z) (pd : R) (k : nat) :
  (0 ≤ start < len (Points route))%Z →
  ∀ (j fuel : nat),
    (∀ i : nat, (j ≤ i < j + k)%nat → travelled route start i < pd) →
    pd <= travelled route start (j + k) →
    (k ≤ fuel)%nat →
    NaivePredictPosition_walk fuel route (Finite pd)
      (reached route start j) (travelled route start j)
      (heading route start j)
    = Ok (reached route start (j + k), heading route start (j + k)).
Proof.
  intros Hs. induction k as [|k IH]; intros j fuel Hbelow Hreach Hfuel.
  - rewrite Nat.add_0_r in *.
    destruct fuel; simpl;
      rewrite bool_decide_eq_false_2 by lra; reflexivity.
  - destruct fuel as [|fuel]; [lia|].
    rewrite walk_step by (try apply Hbelow; auto with lia).
    replace (j + S k)%nat with (S j + k)%nat in * by lia.
    apply IH; [|assumption|lia].
    intros i Hi. apply Hbelow. lia.
Qed.

End WalkFacts.

Section WalkTheorem.
Import Geometry Samples.
Local Open Scope R_scope.

(** When the loop has nothing to cover, the prediction is the closest
    point. *)
Lemma NaivePredictPosition_stays (fuel : nat) (vehicle : Vehicle)
    (lastUpdate : Location) (route : Route) (ms : ModelService)
    (now : time_Time) (start : Z) (pd : float64) :
  (0 ≤ start < len (Points route))%Z →
  NaivePredictPosition_distance fuel lastUpdate route ms now
  = Ok (start, pd) →
  below 0 pd = false →
  NaivePredictPosition fuel (Some vehicle) (Some lastUpdate) (Some route)
    ms now
  = Ok {| pred_VehicleID := vehicle_ID vehicle;
          pred_Point := point_at route start;
          pred_Index := start;
          pred_Angle := 0 |}.
Proof.
  intros Hs Hd Hpd. unfold NaivePredictPosition. simpl. rewrite Hd. simpl.
  assert (NaivePredictPosition_walk fuel route pd start 0 0 = Ok (start, 0))
    as ->.
  { destruct fuel; simpl; now rewrite Hpd. }
  simpl. rewrite (item_point_at route start Hs). reflexivity.
Qed.

(** On a route of one point without stops the closest point is the point
    0, no stop is being approached, and the distance to cover is that of
    the constant speed. *)
Lemma NaivePredictPosition_distance_one_point (fuel : nat)
    (lastUpdate : Location) (route : Route) (ms : ModelService)
    (now : time_Time) (p : Point) :
  Points route = [p] → StopIDs route = [] → ms_Stops ms ≠ [] →
  NaivePredictPosition_distance fuel lastUpdate route ms now
  = Ok (0%Z,
        Finite (Seconds (now - loc_Time lastUpdate) * loc_Speed lastUpdate)).
Proof.
  intros Hp Hs Hst. unfold NaivePredictPosition_distance.
  assert (∀ lat lon, ClosestPointTo lat lon route = 0%Z) as Hc.
  { intros. unfold ClosestPointTo. rewrite Hp. reflexivity. }
  rewrite Hc, ClosestStop_no_stop_id by exact Hs. simpl.
  unfold HeadingTowardTowardOrLeavingStop.
  destruct (ms_Stops ms) as [|stop stops]; [done|]. simpl.
  rewrite Hc, Hp. simpl.
  unfold DistanceToPointAlongRoute. destruct fuel; reflexivity.
Qed.

Lemma DistanceBetween_positive (p1 p2 : Point) :
  0 < haversine (toRadians (Latitude p2) - toRadians (Latitude p1))
      + cos (toRadians (Latitude p1)) * cos (toRadians (Latitude p2))
        * haversine (toRadians (Longitude p2) - toRadians (Longitude p1)) →
  0 < DistanceBetween p1 p2.
Proof.
  intros H. unfold DistanceBetween, earthRadius.
  match goal with |- context [asin ?a] =>
    assert (0 < asin a) end; [|nra].
  now apply asin_pos, sqrt_lt_R0.
Qed.

Lemma one_degree : 0 < cos (1 * PI / 180) < 1.
Proof.
  pose proof PI_RGT_0. split.
  - apply cos_gt_0; lra.
  - apply cos_lt_1. lra.
Qed.

Lemma DistanceBetween_origin_north_east :
  0 < DistanceBetween origin north_east.
Proof.
  apply DistanceBetween_positive.
  unfold origin, north_east, toRadians, haversine. simpl.
  replace (0 * PI / 180) with 0 by (unfold Rdiv; ring).
  rewrite !Rminus_0_r, cos_0. pose proof one_degree. nra.
Qed.

Lemma DistanceBetween_east_north_east :
  0 < DistanceBetween east north_east.
Proof.
  apply DistanceBetween_positive.
  unfold east, north_east, toRadians, haversine. simpl.
  replace (0 * PI / 180) with 0 by (unfold Rdiv; ring).
  rewrite Rminus_0_r, Rminus_diag, cos_0. pose proof one_degree. nra.
Qed.

(** Once a point at the distance 0 is found, the loop of [ClosestPointTo]
    keeps its index. *)
Lemma ClosestPointTo_range_found (latitude longitude : R)
    (points : list Point) (i index : Z) :
  ClosestPointTo_range latitude longitude points i index (Finite 0) = index.
Proof.
  revert i. induction points as [|p points IH]; intros i; [reflexivity|].
  simpl. rewrite bool_decide_eq_false_2; [apply IH|].
  pose proof (DistanceBetween_nonneg p
                {| Latitude := latitude; Longitude := longitude |}). lra.
Qed.

(** The point of a route closest to its first point is that point. *)
Lemma ClosestPointTo_first_point (route : Route) (p : Point)
    (points : list Point) :
  Points route = p :: points →
  ClosestPointTo (Latitude p) (Longitude p) route = 0%Z.
Proof.
  intros Hp. unfold ClosestPointTo. rewrite Hp. simpl.
  assert ({| Latitude := Latitude p; Longitude := Longitude p |} = p) as ->
    by now destruct p.
  rewrite DistanceBetween_same. apply ClosestPointTo_range_found.
Qed.

(** The stop of the town is closest to the third point of the square and
    of the route whose first points are the same. *)
Lemma ClosestPointTo_far_corner (route : Route) :
  route = square ∨ route = doubled → ClosestPointTo 1 1 route = 2%Z.
Proof.
  pose proof DistanceBetween_origin_north_east as Ho.
  pose proof DistanceBetween_east_north_east as He.
  assert ({| Latitude := 1; Longitude := 1 |} = north_east) as Hne
    by reflexivity.
  intros [-> | ->]; unfold ClosestPointTo; simpl; rewrite !Hne;
    rewrite DistanceBetween_same.
  - pose proof (DistanceBetween_nonneg north north_east) as Hn.
    destruct (bool_decide (DistanceBetween east north_east
                           < DistanceBetween origin north_east));
      (rewrite bool_decide_eq_true_2 by assumption);
      (rewrite bool_decide_eq_false_2 by lra); reflexivity.
  - rewrite (bool_decide_eq_false_2
               (DistanceBetween origin north_east
                < DistanceBetween origin north_east)) by lra.
    rewrite bool_decide_eq_true_2 by assumption. reflexivity.
Qed.

(** In the town, for a vehicle observed at the origin on the square or on
    the route whose first points are the same, no stop is being approached
    and the distance to cover is that of the constant speed. *)
Lemma NaivePredictPosition_distance_in_town (fuel : nat)
    (lastUpdate : Location) (route : Route) (now : time_Time) :
  route = square ∨ route = doubled →
  loc_Latitude lastUpdate = 0 → loc_Longitude lastUpdate = 0 →
  NaivePredictPosition_distance fuel lastUpdate route town now
  = Ok (0%Z,
        Finite (Seconds (now - loc_Time lastUpdate) * loc_Speed lastUpdate)).
Proof.
  intros Hr Hlat Hlon. unfold NaivePredictPosition_distance.
  rewrite Hlat, Hlon.
  assert (ClosestPointTo 0 0 route = 0%Z) as ->.
  { destruct Hr as [-> | ->].
    - exact (ClosestPointTo_first_point square origin _ eq_refl).
    - exact (ClosestPointTo_first_point doubled origin _ eq_refl). }
  rewrite ClosestStop_no_stop_id by (destruct Hr as [-> | ->]; reflexivity).
  simpl. unfold HeadingTowardTowardOrLeavingStop. simpl.
  rewrite (ClosestPointTo_far_corner route Hr).
  assert (DistanceToPointAlongRoute fuel 0 0 route = Ok 0) as ->
    by (unfold DistanceToPointAlongRoute; destruct fuel; reflexivity).
  destruct Hr as [-> | ->]; reflexivity.
Qed.

(** C8, as amended.  Let the part of [NaivePredictPosition] before its loop
    return the index [start] of the route, which is the index of the
    point closest to the last update, and the [predictedDistance].  The
    loop goes from point to point, back to 0 after the last, and the
    prediction that [NaivePredictPosition] returns is made after [k]
    points when [k] is the first number of legs whose added length is
    [predictedDistance] or more: its index is the index reached, its
    point the point of the route there, and its angle that of the last
    leg.  So for a [predictedDistance] of 0 or less, or one that no value
    is below, the prediction is the point and the index closest to the
    last update, with the angle 0; and for a [predictedDistance] that is
    the length from point 0 to point 1, from the index 0, the predicted
    index is 1 when that length is positive. *)
Theorem NaivePredictPosition_first_reach (fuel : nat) (vehicle : Vehicle)
    (lastUpdate : Location) (route : Route) (ms : ModelService)
    (now : time_Time) (start : Z) (pd : float64) :
  NaivePredictPosition_distance fuel lastUpdate route ms now
  = Ok (start, pd) →
  (0 ≤ start < len (Points route))%Z →
  let prediction :=
    NaivePredictPosition fuel (Some vehicle) (Some lastUpdate) (Some route)
      ms now in
  start = ClosestPointTo (loc_Latitude lastUpdate)
            (loc_Longitude lastUpdate) route
  ∧ (∀ (d : R) (k : nat),
       pd = Finite d →
       (∀ i : nat, (i < k)%nat → travelled route start i < d) →
       d <= travelled route start k →
       (k ≤ fuel)%nat →
       prediction
       = Ok {| pred_VehicleID := vehicle_ID vehicle;
               pred_Point := point_at route (reached route start k);
               pred_Index := reached route start k;
               pred_Angle := heading route start k |})
  ∧ ((∃ d : R, pd = Finite d ∧ d <= 0) ∨ pd = MinusInfOrNaN →
     prediction
     = Ok {| pred_VehicleID := vehicle_ID vehicle;
             pred_Point := point_at route start;
             pred_Index := start;
             pred_Angle := 0 |})
  ∧ (∀ d : R,
       pd = Finite d → start = 0%Z → (1 < len (Points route))%Z →
       d = DistanceBetween (point_at route 0) (point_at route 1) →
       0 < d → (1 ≤ fuel)%nat →
       prediction
       = Ok {| pred_VehicleID := vehicle_ID vehicle;
               pred_Point := point_at route 1;
               pred_Index := 1;
               pred_Angle :=
                 AngleBetween (point_at route 0) (point_at route 1) |}).
Proof.
  intros Hd Hs prediction.
  assert (∀ (d : R) (k : nat),
       pd = Finite d →
       (∀ i : nat, (i < k)%nat → travelled route start i < d) →
       d <= travelled route start k →
       (k ≤ fuel)%nat →
       prediction
       = Ok {| pred_VehicleID := vehicle_ID vehicle;
               pred_Point := point_at route (reached route start k);
               pred_Index := reached route start k;
               pred_Angle := heading route start k |}) as Hfirst.
  { intros d k -> Hbelow Hreach Hfuel.
    assert (NaivePredictPosition_walk fuel route (Finite d) start 0 0
            = Ok (reached route start k, heading route start k)) as Hw.
    { apply (walk_from route start d k Hs 0%nat fuel); auto.
      intros i Hi. apply Hbelow. lia. }
    unfold prediction, NaivePredictPosition. simpl. rewrite Hd. simpl.
    rewrite Hw. simpl.
    rewrite (item_point_at route (reached route start k))
      by now apply reached_range.
    reflexivity. }
  split_and!.
  - unfold NaivePredictPosition_distance in Hd.
    repeat (match type of Hd with
            | context [mbind _ ?m] => destruct m; simpl in Hd;
                                      try discriminate
            end).
    repeat case_match; congruence.
  - exact Hfirst.
  - intros Hpd.
    apply (NaivePredictPosition_stays fuel vehicle lastUpdate route ms now
             start pd Hs Hd).
    destruct Hpd as [(d & -> & Hle)| ->]; [|reflexivity].
    simpl. apply bool_decide_eq_false_2. lra.
  - intros d Hpd -> Hlen Hlength Hpos Hfuel.
    assert (reached route 0 1 = 1%Z) as Hr.
    { simpl. unfold next_index. case_match; lia. }
    rewrite (Hfirst d 1%nat Hpd).
    + unfold heading. now rewrite Hr.
    + intros i Hi. assert (i = 0%nat) as -> by lia. simpl. lra.
    + unfold travelled, leg. rewrite Hr. simpl reached. lra.
    + exact Hfuel.
Qed.

Lemma Seconds_one : Seconds (1000000000 - 0) = 1.
Proof.
  unfold Seconds. change (1000000000 - 0)%Z with 1000000000%Z.
  assert (10 ^ 9 = 1000000000) as -> by (simpl; lra).
  field.
Qed.

(** The scenario of the square: a vehicle at the corner 0 whose speed
    takes it, in the second since its last update, the length of the
    first side. *)
Lemma NaivePredictPosition_on_square :
  NaivePredictPosition 1 (Some {| vehicle_ID := 1 |})
    (Some (leaving (DistanceBetween origin east))) (Some square) town
    1000000000
  = Ok {| pred_VehicleID := 1; pred_Point := east; pred_Index := 1;
          pred_Angle := AngleBetween origin east |}.
Proof.
  assert (NaivePredictPosition_distance 1
            (leaving (DistanceBetween origin east)) square town 1000000000
          = Ok (0%Z, Finite (DistanceBetween origin east))) as Hd.
  { rewrite (NaivePredictPosition_distance_in_town 1
               (leaving (DistanceBetween origin east)) square 1000000000)
      by auto.
    simpl loc_Time. simpl loc_Speed. rewrite Seconds_one.
    now rewrite Rmult_1_l. }
  assert ((0 ≤ 0 < len (Points square))%Z) as Hs
    by (unfold len; simpl; lia).
  destruct (NaivePredictPosition_first_reach 1 {| vehicle_ID := 1 |}
              (leaving (DistanceBetween origin east)) square town
              1000000000 0 (Finite (DistanceBetween origin east)) Hd Hs)
    as (_ & _ & _ & Hside).
  apply (Hside (DistanceBetween origin east) eq_refl eq_refl).
  - unfold len; simpl; lia.
  - reflexivity.
  - exact DistanceBetween_origin_east.
  - lia.
Defined.

(** On a route whose points 0 and 1 are the same, a vehicle that stands at
    the point 0 has a [predictedDistance] that is the length from point 0
    to point 1, and its predicted index is 0. *)
Lemma NaivePredictPosition_on_same_points :
  ∃ (pd : R) (p : Prediction),
    NaivePredictPosition_distance 1 (seen 1) doubled town 5
    = Ok (0%Z, Finite pd)
    ∧ pd = DistanceBetween (point_at doubled 0) (point_at doubled 1)
    ∧ NaivePredictPosition 1 (Some {| vehicle_ID := 1 |}) (Some (seen 1))
        (Some doubled) town 5
      = Ok p
    ∧ pred_Index p = 0%Z
    ∧ pred_Index p ≠ 1%Z.
Proof.
  assert (NaivePredictPosition_distance 1 (seen 1) doubled town 5
          = Ok (0%Z, Finite (Seconds (5 - 0) * 0))) as Hd
    by (apply (NaivePredictPosition_distance_in_town 1 (seen 1) doubled 5);
        [now right|reflexivity..]).
  exists (Seconds (5 - 0) * 0),
    {| pred_VehicleID := 1; pred_Point := point_at doubled 0;
       pred_Index := 0; pred_Angle := 0 |}.
  split_and!.
  - exact Hd.
  - change (point_at doubled 0) with origin.
    change (point_at doubled 1) with origin.
    rewrite DistanceBetween_same. ring.
  - apply (NaivePredictPosition_stays 1 {| vehicle_ID := 1 |} (seen 1)
             doubled town 5 0 (Finite (Seconds (5 - 0) * 0))).
    + unfold len; simpl; lia.
    + exact Hd.
    + simpl. apply bool_decide_eq_false_2. rewrite Rmult_0_r. lra.
  - reflexivity.
  - simpl. lia.
Qed.

(** The prediction for a vehicle that stands on the route of one point. *)
Lemma NaivePredictPosition_parked (fuel : nat) (id : Z) (fails : nat → bool)
    (now : time_Time) :
  NaivePredictPosition fuel (Some {| vehicle_ID := id |}) (Some (seen id))
    (Some depot) (campus fails) now
  = Ok (parked id).
Proof.
  apply (NaivePredictPosition_stays fuel {| vehicle_ID := id |} (seen id)
           depot (campus fails) now 0
           (Finite (Seconds (now - 0) * 0))).
  - unfold len; simpl; lia.
  - now apply (NaivePredictPosition_distance_one_point fuel (seen id) depot
                 (campus fails) now origin).
  - simpl. apply bool_decide_eq_false_2. rewrite Rmult_0_r. lra.
Qed.

End WalkTheorem.

(** ** The tracking manager *)

Section ManagerFacts.
Import Geometry Manager Samples.

Ltac run :=
  unfold predictVehiclePosition, handleNewPrediction, Subscribe, tick,
    time_Now, CreateLocation, log, call, set_self, set_env, when, gets,
    modify, lift, mbind, M_bind, mret, M_ret in *.

(** The state [tracking svc ids] is the one that the methods of the
    manager build. *)
Lemma tracking_is_built (svc : ModelService) :
  (for_range [Some (seen 1); Some (seen 2)] locationSubscriber
     {| self :=
          {| ms := svc; predictions := ∅; predictionInterval := 1000;
             predictUpdates := true; updates := ∅; vehicleIDs := [];
             subscribers := [7%nat] |};
        env := quiet |})
  = (tracking svc [1; 2]%Z, Ok tt).
Proof. reflexivity. Qed.

Lemma predictVehiclePosition_runs (fuel : nat) (id : Z) (w : world)
    (v : Vehicle) (u : Location) (rid : Z) (r : Route) (p : Prediction)
    (e1 e2 : bool) :
  ms_Vehicle (ms (self w)) id = (Some v, e1) →
  updates (self w) !! vehicle_ID v = Some u →
  loc_RouteID u = Some rid →
  ms_Route (ms (self w)) rid = (Some r, e2) →
  NaivePredictPosition fuel (Some v) (Some u) (Some r) (ms (self w))
    (clock (env w) (reads (env w))) = Ok p →
  predictVehiclePosition fuel id w = (after_prediction w v u r p e1 e2, Ok tt).
Proof.
  intros Hv Hu Hrid Hr Hp. destruct w as [stm e]. simpl in *.
  run. simpl. rewrite Hv.
  destruct e1; simpl; rewrite Hu; simpl; rewrite Hrid; simpl; rewrite Hr;
    destruct e2; simpl; rewrite Hp; simpl;
    unfold after_prediction; simpl;
    destruct (ms_CreateLocation _ _ _); simpl;
    rewrite <- ?app_assoc, ?app_nil_r; reflexivity.
Qed.

(** The two ways a step goes: to its end, or to a panic or a loop that
    leaves the manager as it was. *)
Lemma predictVehiclePosition_cases (fuel : nat) (id : Z) (w : world) :
  (∃ v u rid r p e1 e2,
     ms_Vehicle (ms (self w)) id = (Some v, e1)
     ∧ updates (self w) !! vehicle_ID v = Some u
     ∧ loc_RouteID u = Some rid
     ∧ ms_Route (ms (self w)) rid = (Some r, e2)
     ∧ NaivePredictPosition fuel (Some v) (Some u) (Some r) (ms (self w))
         (clock (env w) (reads (env w))) = Ok p
     ∧ predictVehiclePosition fuel id w
       = (after_prediction w v u r p e1 e2, Ok tt))
  ∨ (∃ w', only_logged w w'
       ∧ (predictVehiclePosition fuel id w = (w', Panic)
          ∨ predictVehiclePosition fuel id w = (w', Spinning))).
Proof.
  destruct (ms_Vehicle (ms (self w)) id) as [[v|] e1] eqn:Hv.
  2: { right. destruct w as [stm e]. simpl in *. run. simpl. rewrite Hv.
       destruct e1; simpl; eexists; (split; [|left; reflexivity]); done. }
  destruct (updates (self w) !! vehicle_ID v) as [u|] eqn:Hu.
  2: { right. destruct w as [stm e]. simpl in *. run. simpl. rewrite Hv.
       destruct e1; simpl; rewrite Hu; simpl;
         eexists; (split; [|left; reflexivity]); done. }
  destruct (loc_RouteID u) as [rid|] eqn:Hrid.
  2: { right. destruct w as [stm e]. simpl in *. run. simpl. rewrite Hv.
       destruct e1; simpl; rewrite Hu; simpl; rewrite Hrid; simpl;
         eexists; (split; [|left; reflexivity]); done. }
  destruct (ms_Route (ms (self w)) rid) as [[r|] e2] eqn:Hr.
  2: { right. destruct w as [stm e]. simpl in *. run. simpl. rewrite Hv.
       destruct e1; simpl; rewrite Hu; simpl; rewrite Hrid; simpl;
         rewrite Hr; destruct e2; simpl;
         eexists; (split; [|left; reflexivity]); done. }
  destruct (NaivePredictPosition fuel (Some v) (Some u) (Some r) (ms (self w))
              (clock (env w) (reads (env w)))) as [p| |] eqn:Hp.
  - left. exists v, u, rid, r, p, e1, e2. split_and!; try done.
    now apply predictVehiclePosition_runs with rid.
  - right. destruct w as [stm e]. simpl in *. run. simpl. rewrite Hv.
    destruct e1; simpl; rewrite Hu; simpl; rewrite Hrid; simpl;
      rewrite Hr; destruct e2; simpl; rewrite Hp; simpl;
      eexists; (split; [|left; reflexivity]); done.
  - right. destruct w as [stm e]. simpl in *. run. simpl. rewrite Hv.
    destruct e1; simpl; rewrite Hu; simpl; rewrite Hrid; simpl;
      rewrite Hr; destruct e2; simpl; rewrite Hp; simpl;
      eexists; (split; [|right; reflexivity]); done.
Qed.

(** What cannot be resolved makes the step panic: a vehicle, a last
    update or a route that is not found, and an update without a route. *)
Lemma predictVehiclePosition_panics (fuel : nat) (id : Z) (w : world) :
  (ms_Vehicle (ms (self w)) id).1 = None
  ∨ (∃ v, (ms_Vehicle (ms (self w)) id).1 = Some v
          ∧ (updates (self w) !! vehicle_ID v = None
             ∨ ∃ u, updates (self w) !! vehicle_ID v = Some u
                    ∧ (loc_RouteID u = None
                       ∨ ∃ rid, loc_RouteID u = Some rid
                          ∧ (ms_Route (ms (self w)) rid).1 = None))) →
  (predictVehiclePosition fuel id w).2 = Panic.
Proof.
  destruct w as [stm e]. simpl. run. simpl.
  destruct (ms_Vehicle (ms stm) id) as [vehicle e1]. simpl.
  intros [->|(v & -> & H)]; [destruct e1; reflexivity|].
  destruct H as [Hu|(u & Hu & H)];
    [destruct e1; simpl; rewrite Hu; reflexivity|].
  destruct H as [Hrid|(rid & Hrid & H)];
    [destruct e1; simpl; rewrite Hu; simpl; rewrite Hrid; reflexivity|].
  destruct e1; simpl; rewrite Hu; simpl; rewrite Hrid; simpl;
    destruct (ms_Route (ms stm) rid) as [route e2]; simpl in H; subst route;
    destruct e2; reflexivity.
Qed.

(** Steps in a row. *)
Lemma for_range_cons {C P A : Type} (x : A) (l : list A)
    (body : A → M (World C P) unit) (w w' : World C P) :
  body x w = (w', Ok tt) →
  for_range (x :: l) body w = for_range l body w'.
Proof. intros H. simpl. unfold mbind, M_bind. now rewrite H. Qed.

Lemma for_range_stops {C P A : Type} (x : A) (l : list A)
    (body : A → M (World C P) unit) (w w' : World C P) (r : res unit) :
  body x w = (w', r) → r ≠ Ok tt →
  for_range (x :: l) body w = (w', r).
Proof.
  intros H Hr. simpl. unfold mbind, M_bind. rewrite H.
  destruct r as [[]| |]; done.
Qed.

(** A firing of the ticker with the vehicles 1 and 2 standing on the route
    of one point. *)
Lemma tick_tracking (fuel : nat) (fails : nat → bool) :
  tick fuel (tracking (campus fails) [1; 2]%Z)
  = (after_prediction
       (after_prediction (tracking (campus fails) [1; 2]%Z)
          {| vehicle_ID := 1 |} (seen 1) depot (parked 1) false false)
       {| vehicle_ID := 2 |} (seen 2) depot (parked 2) false false,
     Ok tt).
Proof.
  unfold tick at 1. unfold mbind, M_bind, gets.
  cbn [self vehicleIDs tracking].
  erewrite for_range_cons; cycle 1.
  { apply predictVehiclePosition_runs with 1%Z; try reflexivity.
    apply NaivePredictPosition_parked. }
  erewrite for_range_cons; cycle 1.
  { apply predictVehiclePosition_runs with 1%Z; try reflexivity.
    apply NaivePredictPosition_parked. }
  reflexivity.
Qed.

Lemma built_in_same (w w' : world) (loc : Location) :
  updates (self w') = updates (self w) → ms (self w') = ms (self w) →
  clock (env w') = clock (env w) →
  built_in w' loc → built_in w loc.
Proof.
  intros Hu Hm Hc (k & u & rid & r & e & p & n & H1 & H2 & H3 & H4).
  exists k, u, rid, r, e, p, n. now rewrite <- Hu, <- Hm, <- Hc.
Qed.

(** What the steps of a firing leave, however they end: calls of
    [CreateLocation] with locations built by the steps, and no call of a
    subscriber. *)
Lemma steps_leave (fuel : nat) (ids : list Z) (w : world) :
  let w' := (for_range ids (predictVehiclePosition fuel) w).1 in
  (∃ new, created (env w') = created (env w) ++ new
          ∧ Forall (fun c => built_in w c.1) new)
  ∧ called (env w') = called (env w)
  ∧ ms (self w') = ms (self w)
  ∧ updates (self w') = updates (self w)
  ∧ subscribers (self w') = subscribers (self w)
  ∧ clock (env w') = clock (env w).
Proof.
  revert w. induction ids as [|id ids IH]; intros w; cbv zeta.
  { simpl. split; [exists []; now rewrite app_nil_r|done]. }
  destruct (predictVehiclePosition_cases fuel id w)
    as [(v & u & rid & r & p & e1 & e2 & Hv & Hu & Hrid & Hr & Hp & Hrun)
       |(w1 & (Hs & Hc & Hcr & Hca) & [Hrun|Hrun])].
  - rewrite (for_range_cons _ _ _ _ _ Hrun).
    set (w1 := after_prediction w v u r p e1 e2) in *.
    destruct (IH w1) as ((new & Hnew & Hall) & H1 & H2 & H3 & H4 & H5).
    split_and!.
    + eexists (_ :: new). split.
      * rewrite Hnew. unfold w1 at 1. simpl. rewrite <- app_assoc.
        reflexivity.
      * constructor.
        -- exists (vehicle_ID v), u, rid, r, e2, p, (S (reads (env w))).
           done.
        -- eapply Forall_impl; [exact Hall|].
           intros c. now apply built_in_same.
    + now rewrite H1.
    + now rewrite H2.
    + now rewrite H3.
    + now rewrite H4.
    + now rewrite H5.
  - rewrite (for_range_stops _ _ _ _ _ _ Hrun) by done. simpl.
    rewrite Hs, Hc, Hcr, Hca.
    split; [exists []; now rewrite app_nil_r|done].
  - rewrite (for_range_stops _ _ _ _ _ _ Hrun) by done. simpl.
    rewrite Hs, Hc, Hcr, Hca.
    split; [exists []; now rewrite app_nil_r|done].
Qed.

Lemma ticks_call_nobody (fuel n : nat) (w : world) :
  called (env (ticks fuel n w).1) = called (env w).
Proof.
  revert w. induction n as [|n IH]; intros w; [reflexivity|].
  simpl. unfold mbind, M_bind.
  pose proof (steps_leave fuel (vehicleIDs (self w)) w) as (_ & Hc & _).
  unfold tick at 1. unfold mbind, M_bind, gets.
  destruct (for_range (vehicleIDs (self w)) (predictVehiclePosition fuel) w)
    as [w1 [[]| |]]; simpl in *; try exact Hc.
  now rewrite IH.
Qed.

(** C2, on the code: no firing of the ticker of [Run] calls a subscriber.
    Whatever the state, the callbacks called after [Run] are those called
    before it; and in the state built with the subscriber 7 and the
    vehicles 1 and 2, a firing ends well, leaves the predictions of both
    vehicles in the cache, and has called nobody. *)
Theorem Run_calls_no_subscriber :
  (∀ (fuel n : nat) (w : world),
     called (env (Run fuel n w).1) = called (env w))
  ∧ (∃ w' : world,
       tick 0 (tracking (campus never) [1; 2]%Z) = (w', Ok tt)
       ∧ subscribers (self w') = [7%nat]
       ∧ predictions (self w') !! 1%Z = Some (parked 1)
       ∧ predictions (self w') !! 2%Z = Some (parked 2)
       ∧ called (env w') = []).
Proof.
  split.
  - intros fuel n w. unfold Run, mbind, M_bind, gets, when.
    destruct (predictUpdates (self w)); [|reflexivity].
    apply ticks_call_nobody.
  - eexists. split; [apply tick_tracking|].
    split_and!; try reflexivity.
Qed.

(** C4, on the code: a vehicle that the service cannot resolve makes the
    step panic after the condition is logged.  With the active vehicles 3
    and 1, of which the service knows only 1, the firing ends in a panic:
    the log has the one line of the failed lookup, and nothing has been
    done for vehicle 1. *)
Theorem tick_panics_on_unresolved_vehicle :
  ∃ w' : world,
    tick 0 (tracking (campus never) [3; 1]%Z) = (w', Panic)
    ∧ logged (env w') = ["cannot get vehicle for prediction"%string]
    ∧ created (env w') = []
    ∧ predictions (self w') = ∅.
Proof. eexists. split; [reflexivity|done]. Qed.

(** C5, as stated, fails: with the vehicles 1 and 2 and a service whose
    first call of [CreateLocation] fails, the firing ends well, the
    prediction of vehicle 1 is in the cache, where there was none, and
    [CreateLocation] has been called a second time, for vehicle 2. *)
Lemma tick_caches_after_failed_persist :
  ∃ w' : world,
    tick 0 (tracking (campus at_first) [1; 2]%Z) = (w', Ok tt)
    ∧ created (env w')
      = [(derived (seen 1) depot (parked 1) 1001, true);
         (derived (seen 2) depot (parked 2) 1003, false)]
    ∧ predictions (self (tracking (campus at_first) [1; 2]%Z)) !! 1%Z = None
    ∧ predictions (self w') !! 1%Z = Some (parked 1)
    ∧ predictions (self w') !! 2%Z = Some (parked 2).
Proof.
  eexists. split; [apply tick_tracking|]. split_and!; reflexivity.
Qed.

(** C5, as amended.  When the call of [CreateLocation] of a step fails,
    the failure is logged, the step still ends well, and the firing goes
    on to the vehicles that follow: a failure to persist does not end the
    firing. *)
Theorem failed_persist_does_not_end_the_tick (fuel : nat) (id : Z)
    (ids : list Z) (w w' : world) (r : res unit) (loc : Location) :
  predictVehiclePosition fuel id w = (w', r) →
  created (env w') = created (env w) ++ [(loc, true)] →
  r = Ok tt
  ∧ last (logged (env w'))
    = Some "could not create location for prediction"%string
  ∧ for_range (id :: ids) (predictVehiclePosition fuel) w
    = for_range ids (predictVehiclePosition fuel) w'.
Proof.
  intros Hrun Hcreated.
  destruct (predictVehiclePosition_cases fuel id w)
    as [(v & u & rid & r' & p & e1 & e2 & Hv & Hu & Hrid & Hr & Hp & Hrun')
       |(w1 & (Hs & Hc & Hcr & Hca) & [Hrun'|Hrun'])];
    rewrite Hrun in Hrun'; injection Hrun' as -> ->.
  - simpl in Hcreated. apply app_inv_head in Hcreated.
    injection Hcreated as Hloc Hfailed.
    split_and!.
    + reflexivity.
    + simpl. rewrite Hfailed, !app_assoc. apply last_snoc.
    + apply for_range_cons. exact Hrun.
  - rewrite Hcr in Hcreated. apply (f_equal length) in Hcreated.
    rewrite length_app in Hcreated. simpl in Hcreated. lia.
  - rewrite Hcr in Hcreated. apply (f_equal length) in Hcreated.
    rewrite length_app in Hcreated. simpl in Hcreated. lia.
Qed.

(** The step of vehicle 1 when the first call of [CreateLocation] fails. *)
Lemma failed_persist_on_campus :
  let w := tracking (campus at_first) [1; 2]%Z in
  let w' := after_prediction w {| vehicle_ID := 1 |} (seen 1) depot
              (parked 1) false false in
  last (logged (env w'))
  = Some "could not create location for prediction"%string
  ∧ for_range [1; 2]%Z (predictVehiclePosition 0) w
    = for_range [2]%Z (predictVehiclePosition 0) w'.
Proof.
  intros w w'.
  assert (predictVehiclePosition 0 1 w = (w', Ok tt)) as Hrun.
  { apply predictVehiclePosition_runs with 1%Z; try reflexivity.
    apply NaivePredictPosition_parked. }
  destruct (failed_persist_does_not_end_the_tick 0 1 [2]%Z w w' (Ok tt)
              (derived (seen 1) depot (parked 1) 1001) Hrun eq_refl)
    as (_ & Hlog & Hgo).
  split; [exact Hlog|exact Hgo].
Defined.

(** C10.  Every location that a firing of the ticker hands to
    [CreateLocation] has no vehicle id, the zero creation time and the
    zero id; its tracker id, heading and speed are those of an update that
    the manager holds, its coordinates those of a predicted point, its
    time a reading of the clock, and its route id that of a route of the
    service.  Such locations are made: the firing with the vehicles 1 and
    2 hands over two of them. *)
Theorem tick_persists_unassigned_locations :
  (∀ (fuel : nat) (w : world),
     ∃ new : list (Location * bool),
       created (env (tick fuel w).1) = created (env w) ++ new
       ∧ Forall (fun c =>
           let loc := c.1 in
           loc_VehicleID loc = None
           ∧ loc_Created loc = zeroTime
           ∧ loc_ID loc = 0%Z
           ∧ ∃ (k : Z) (u : Location) (rid : Z) (r : Route) (e : bool)
               (p : Prediction) (n : nat),
               updates (self w) !! k = Some u
               ∧ loc_RouteID u = Some rid
               ∧ ms_Route (ms (self w)) rid = (Some r, e)
               ∧ loc_TrackerID loc = loc_TrackerID u
               ∧ loc_Latitude loc = Latitude (pred_Point p)
               ∧ loc_Longitude loc = Longitude (pred_Point p)
               ∧ loc_Heading loc = loc_Heading u
               ∧ loc_Speed loc = loc_Speed u
               ∧ loc_Time loc = clock (env w) n
               ∧ loc_RouteID loc = Some (route_ID r)) new)
  ∧ (∃ (w' : world) (loc1 loc2 : Location),
       tick 0 (tracking (campus never) [1; 2]%Z) = (w', Ok tt)
       ∧ created (env w') = [(loc1, false); (loc2, false)]
       ∧ loc_TrackerID loc1 = "tracker"%string
       ∧ loc_VehicleID loc1 = None
       ∧ loc_Time loc1 = 1001%Z
       ∧ loc_Created loc1 = 0%Z).
Proof.
  split.
  - intros fuel w. unfold tick, mbind, M_bind, gets.
    destruct (steps_leave fuel (vehicleIDs (self w)) w)
      as ((new & Hnew & Hall) & _).
    exists new. split; [exact Hnew|].
    eapply Forall_impl; [exact Hall|].
    intros [loc failed] (k & u & rid & r & e & p & n & H1 & H2 & H3 & ->).
    simpl. split_and!; try reflexivity.
    exists k, u, rid, r, e, p, n. done.
  - do 3 eexists. split; [apply tick_tracking|]. split_and!; reflexivity.
Qed.

End ManagerFacts.

(** ** The replay engine *)

Section SpooferFacts.
Import Spoofer Samples.

(** The state [replaying svc] is the one that [New], [Subscribe] and
    [parseUpdates] build. *)
Lemma replaying_is_built (svc : ModelService) :
  (s ← New {| cfg_SpoofUpdates := true; cfg_SpoofInterval := "1us" |}
         (Some 1000%Z) svc;
   Some ((Subscribe 7;; parseUpdates (Some recordings))
           {| self := s; env := quiet |}))
  = Some (replaying svc, Ok tt).
Proof. reflexivity. Qed.

Lemma for_range_call (subs : list nat) (loc : Location) (w : world) :
  for_range subs (fun sub => call sub loc) w
  = ({| self := self w;
        env :=
          {| clock := clock (env w); reads := reads (env w);
             created := created (env w); logged := logged (env w);
             called := called (env w) ++ map (fun sub => (sub, loc)) subs |}
     |}, Ok tt).
Proof.
  revert w. induction subs as [|sub subs IH]; intros [s e]; simpl.
  - rewrite app_nil_r. now destruct e.
  - unfold mbind, M_bind, call at 1, set_env, modify. simpl.
    rewrite IH. simpl. now rewrite <- app_assoc.
Qed.

(** The three ways the body of the loop goes. *)
Lemma spoof_body_cases (vehicleID : Z) (updates' : list Location)
    (w : world) :
  match item updates' (cursor (self w) vehicleID) with
  | Ok update =>
      spoof_body vehicleID updates' w
      = if ms_CreateLocation (ms (self w)) (length (created (env w)))
             (emitted w update)
        then (after_failure w update, Ok false)
        else (after_spoof w vehicleID (len updates') update, Ok true)
  | Panic => spoof_body vehicleID updates' w = (w, Panic)
  | Spinning => spoof_body vehicleID updates' w = (w, Spinning)
  end.
Proof.
  destruct w as [s e]. simpl.
  destruct (item updates' (cursor s vehicleID)) as [update| |] eqn:Hitem;
    unfold spoof_body, mbind, M_bind, gets, lift; simpl; rewrite Hitem;
    try reflexivity.
  unfold time_Now, CreateLocation, mbind, M_bind, gets, set_env, modify,
    mret, M_ret. simpl.
  match goal with
  | |- context [ms_CreateLocation _ _ ?l] =>
      change l with (emitted {| self := s; env := e |} update)
  end.
  destruct (ms_CreateLocation (ms s) (length (created e))
              (emitted {| self := s; env := e |} update)); simpl.
  - reflexivity.
  - unfold notifySubscribers, mbind, M_bind, gets, log, set_env, modify.
    simpl. rewrite for_range_call. simpl.
    unfold set_self, when, modify, mret, M_ret, after_spoof, advance,
      cursor. simpl.
    rewrite lookup_insert_eq. simpl.
    destruct (len updates' <=? default 0%Z (spoofIndexes s !! vehicleID) + 1)%Z;
      simpl; unfold with_updateID, with_spoofIndexes; simpl;
      rewrite ?insert_insert_eq; reflexivity.
Qed.

(** The loop of [spoof], turn by turn. *)
Lemma spoof_range_cons (vehicleID : Z) (order : list Z) (w : world) :
  spoof_range (vehicleID :: order) w
  = match updates (self w) !! vehicleID with
    | None => spoof_range order w
    | Some updates' =>
        match spoof_body vehicleID updates' w with
        | (w', Ok true) => spoof_range order w'
        | (w', Ok false) => (w', Ok tt)
        | (w', Panic) => (w', Panic)
        | (w', Spinning) => (w', Spinning)
        end
    end.
Proof.
  simpl. unfold mbind, M_bind, gets at 1.
  destruct (updates (self w) !! vehicleID) as [updates'|]; [|reflexivity].
  destruct (spoof_body vehicleID updates' w) as [w' [[]| |]]; reflexivity.
Qed.

(** A turn of the loop that fails to persist ends the loop, whatever
    vehicles were to follow: the engine is left as it was, cursors and
    counter included, and no subscriber is called.  A turn that persists
    goes on from the state it leaves. *)
Lemma spoof_range_fails (vehicleID : Z) (order : list Z)
    (updates' : list Location) (update : Location) (w : world) :
  updates (self w) !! vehicleID = Some updates' →
  item updates' (cursor (self w) vehicleID) = Ok update →
  ms_CreateLocation (ms (self w)) (length (created (env w)))
    (emitted w update) = true →
  spoof_range (vehicleID :: order) w = (after_failure w update, Ok tt).
Proof.
  intros Hu Hitem Hfail. rewrite spoof_range_cons, Hu.
  pose proof (spoof_body_cases vehicleID updates' w) as Hbody.
  rewrite Hitem, Hfail in Hbody. now rewrite Hbody.
Qed.

Lemma spoof_range_persists (vehicleID : Z) (order : list Z)
    (updates' : list Location) (update : Location) (w : world) :
  updates (self w) !! vehicleID = Some updates' →
  item updates' (cursor (self w) vehicleID) = Ok update →
  ms_CreateLocation (ms (self w)) (length (created (env w)))
    (emitted w update) = false →
  spoof_range (vehicleID :: order) w
  = spoof_range order (after_spoof w vehicleID (len updates') update).
Proof.
  intros Hu Hitem Hfail. rewrite spoof_range_cons, Hu.
  pose proof (spoof_body_cases vehicleID updates' w) as Hbody.
  rewrite Hitem, Hfail in Hbody. now rewrite Hbody.
Qed.


(** C3, on the code: the vehicles 7 and 8 have recordings, the step
    visits 7 first and the call of [CreateLocation] for it fails.  The
    step ends well, and for vehicle 8 nothing has been done: the only call
    of [CreateLocation] is the one that failed, no subscriber has been
    called, and the cursors and the counter are where they were.  The same
    step on a service that persists goes on to vehicle 8. *)
Theorem spoof_skips_the_rest_after_failure :
  ∃ w' w'' : world,
    spoof [7; 8]%Z (replaying (campus at_first)) = (w', Ok tt)
    ∧ updates (self w') !! 8%Z = Some [place 8 1]
    ∧ created (env w') = [(spoofed (place 7 1) 1 1000 1001, true)]
    ∧ called (env w') = []
    ∧ self w' = self (replaying (campus at_first))
    ∧ spoof [7; 8]%Z (replaying (campus never)) = (w'', Ok tt)
    ∧ created (env w'')
      = [(spoofed (place 7 1) 1 1000 1001, false);
         (spoofed (place 8 1) 2 1002 1003, false)].
Proof.
  exists (after_failure (replaying (campus at_first)) (place 7 1)).
  exists (after_spoof
            (after_spoof (replaying (campus never)) 7 3 (place 7 1))
            8 1 (place 8 1)).
  split_and!; reflexivity.
Qed.

(** *** The cursor *)

Lemma advance_mod (n c : Z) :
  (0 ≤ c < n)%Z → advance n c = ((c + 1) `mod` n)%Z.
Proof.
  intros H. unfold advance. destruct (Z.leb_spec n (c + 1)).
  - assert (c + 1 = n)%Z as -> by lia. now rewrite Z.mod_same by lia.
  - now rewrite Z.mod_small by lia.
Qed.

Lemma advance_within (n c : Z) : (0 ≤ c < n)%Z → (0 ≤ advance n c < n)%Z.
Proof. intros H. unfold advance. case_match; lia. Qed.

Lemma cursor_after_spoof (w : world) (vehicleID : Z) (n : Z)
    (update : Location) (v : Z) :
  cursor (self (after_spoof w vehicleID n update)) v
  = if decide (v = vehicleID) then advance n (cursor (self w) vehicleID)
    else cursor (self w) v.
Proof.
  unfold cursor at 1. simpl. destruct (decide (v = vehicleID)) as [->|Hne].
  - now rewrite lookup_insert_eq.
  - now rewrite lookup_insert_ne.
Qed.

Lemma parseUpdates_range_at_start (files : list SpoofFile) (w : world) :
  at_start (self w) → at_start (self (parseUpdates_range files w).1).
Proof.
  revert w. induction files as [|f files IH]; intros w Hw; [exact Hw|].
  simpl. destruct (negb (file_IsDir f) && file_json f); [|now apply IH].
  destruct (file_open_fails f); [exact Hw|].
  unfold mbind, M_bind, when, log, set_env, set_self, modify, mret, M_ret.
  destruct (file_read_fails f); simpl;
    (destruct (file_updates f) as [|first rest] eqn:Hf; simpl;
     [now apply IH|];
     destruct (loc_VehicleID first) as [vehicleID|]; simpl;
     [|now apply IH];
     apply IH; simpl; intros v us; unfold cursor; simpl;
     destruct (decide (v = vehicleID)) as [->|Hne];
     [rewrite !lookup_insert_eq; intros [= <-]; split; [done|];
      unfold len; simpl; lia
     |rewrite !lookup_insert_ne by done; apply Hw]).
Qed.

Lemma at_start_within (s : Spoofer) : at_start s → cursors_within s.
Proof. intros H v us Hv. destruct (H v us Hv). lia. Qed.

(** A step keeps the cursors within their sequences and the recordings as
    they are, whatever the order and whatever fails. *)
Lemma spoof_body_within (vehicleID : Z) (updates' : list Location)
    (w : world) :
  updates (self w) !! vehicleID = Some updates' →
  cursors_within (self w) →
  let w' := (spoof_body vehicleID updates' w).1 in
  cursors_within (self w') ∧ updates (self w') = updates (self w)
  ∧ ms (self w') = ms (self w).
Proof.
  intros Hu Hw. pose proof (spoof_body_cases vehicleID updates' w) as Hb.
  destruct (item updates' (cursor (self w) vehicleID)) as [update| |];
    cbv zeta; rewrite Hb; [|done..].
  destruct (ms_CreateLocation _ _ _); [done|].
  split; [|done]. intros v us Hv. simpl in Hv. simpl fst.
  rewrite cursor_after_spoof. destruct (decide (v = vehicleID)) as [->|Hne].
  - assert (us = updates') as -> by congruence.
    apply advance_within. now apply Hw.
  - now apply Hw.
Qed.

Lemma spoof_range_within (order : list Z) (w : world) :
  cursors_within (self w) →
  let w' := (spoof_range order w).1 in
  cursors_within (self w') ∧ updates (self w') = updates (self w)
  ∧ ms (self w') = ms (self w).
Proof.
  revert w. induction order as [|vehicleID order IH]; intros w Hw;
    [done|].
  cbv zeta. rewrite spoof_range_cons.
  destruct (updates (self w) !! vehicleID) as [updates'|] eqn:Hu;
    [|now apply IH].
  destruct (spoof_body_within vehicleID updates' w Hu Hw) as (H1 & H2 & H3).
  destruct (spoof_body vehicleID updates' w) as [w1 [[]| |]]; simpl in *;
    try done.
  destruct (IH w1 H1) as (H4 & H5 & H6).
  split_and!; [done|congruence..].
Qed.

(** A step on a service that persists moves the cursor of each vehicle it
    visits by one. *)
Lemma spoof_range_advances (order : list Z) (w : world) :
  persists_all (self w) → cursors_within (self w) → NoDup order →
  ∃ w' : world,
    spoof_range order w = (w', Ok tt)
    ∧ updates (self w') = updates (self w)
    ∧ ms (self w') = ms (self w)
    ∧ cursors_within (self w')
    ∧ ∀ (v : Z) (us : list Location),
        updates (self w) !! v = Some us →
        cursor (self w') v
        = if decide (v ∈ order) then advance (len us) (cursor (self w) v)
          else cursor (self w) v.
Proof.
  revert w. induction order as [|v0 order IH]; intros w Hp Hw Hnd.
  { exists w. split_and!; done. }
  apply NoDup_cons in Hnd as [Hnot Hnd].
  rewrite spoof_range_cons.
  destruct (updates (self w) !! v0) as [us0|] eqn:Hu.
  - pose proof (spoof_body_cases v0 us0 w) as Hb.
    pose proof (Hw v0 us0 Hu) as Hc.
    destruct (item_in_range us0 (cursor (self w) v0) Hc) as (update & Hi).
    rewrite Hi, Hp in Hb. rewrite Hb.
    set (w1 := after_spoof w v0 (len us0) update) in *.
    assert (cursors_within (self w1)) as Hw1.
    { pose proof (spoof_body_within v0 us0 w Hu Hw) as (H & _).
      now rewrite Hb in H. }
    destruct (IH w1 Hp Hw1 Hnd) as (w' & Hrun & H1 & H2 & H3 & H4).
    exists w'. split_and!; try done.
    intros v us Hv. rewrite (H4 v us Hv). unfold w1.
    rewrite cursor_after_spoof.
    destruct (decide (v = v0)) as [->|Hne].
    + assert (us = us0) as -> by congruence.
      rewrite decide_False by done.
      rewrite decide_True by apply list_elem_of_here. reflexivity.
    + destruct (decide (v ∈ order)) as [Hin|Hout].
      * rewrite decide_True by now apply list_elem_of_further. reflexivity.
      * rewrite decide_False; [reflexivity|].
        intros [->|Hin]%elem_of_cons; done.
  - destruct (IH w Hp Hw Hnd) as (w' & Hrun & H1 & H2 & H3 & H4).
    exists w'. split_and!; try done.
    intros v us Hv. rewrite (H4 v us Hv).
    assert (v ≠ v0) as Hne by congruence.
    destruct (decide (v ∈ order)) as [Hin|Hout].
    + rewrite decide_True by now apply list_elem_of_further. reflexivity.
    + rewrite decide_False; [reflexivity|].
      intros [->|Hin]%elem_of_cons; done.
Qed.

(** Steps in a row on a service that persists: every cursor has moved
    by the number of steps, modulo the length of its sequence. *)
Lemma steps_advance (orders : list (list Z)) (w : world) :
  persists_all (self w) → cursors_within (self w) →
  Forall (visits (self w)) orders →
  ∃ w' : world,
    for_range orders spoof w = (w', Ok tt)
    ∧ ∀ (v : Z) (us : list Location),
        updates (self w) !! v = Some us →
        cursor (self w') v
        = ((cursor (self w) v + len orders) `mod` len us)%Z.
Proof.
  revert w. induction orders as [|order orders IH]; intros w Hp Hw Hv.
  { exists w. split; [reflexivity|]. intros v us Hu.
    unfold len at 1. simpl. rewrite Z.add_0_r, Z.mod_small; [done|].
    now apply Hw. }
  apply Forall_cons in Hv as [[Hnd Hkeys] Hv].
  destruct (spoof_range_advances order w Hp Hw Hnd)
    as (w1 & Hrun & Hu1 & Hm1 & Hw1 & Hc1).
  destruct (IH w1) as (w' & Hrun' & Hc').
  { intros n loc. rewrite Hm1. apply Hp. }
  { exact Hw1. }
  { eapply Forall_impl; [exact Hv|]. intros o [Ho1 Ho2].
    split; [exact Ho1|]. intros v. rewrite Hu1. apply Ho2. }
  exists w'. split.
  - erewrite for_range_cons; [exact Hrun'|exact Hrun].
  - intros v us Hu. rewrite (Hc' v us) by now rewrite Hu1.
    rewrite (Hc1 v us Hu).
    rewrite decide_True by (apply Hkeys; now rewrite Hu).
    pose proof (Hw v us Hu) as Hin.
    rewrite advance_mod by exact Hin.
    rewrite Z.add_mod_idemp_l by lia.
    f_equal. unfold len. simpl length. lia.
Qed.

Lemma replaying_at_start (svc : ModelService) :
  at_start (self (replaying svc)).
Proof.
  pose proof (parseUpdates_range_at_start recordings
    {| self :=
         {| spoofInterval := 1000; SpoofUpdates := true; spoofIndexes := ∅;
            updates := ∅; updateID := 1; ms := svc; subscribers := [7%nat] |};
       env := quiet |}) as H.
  apply H. intros v us Hv. simpl in Hv. by rewrite lookup_empty in Hv.
Qed.

Lemma replaying_visits (svc : ModelService) (order : list Z) :
  order = [7; 8]%Z ∨ order = [8; 7]%Z → visits (self (replaying svc)) order.
Proof.
  intros Ho. split.
  - destruct Ho as [->| ->]; by apply (bool_decide_unpack _).
  - intros v. simpl.
    rewrite !lookup_insert_is_Some, lookup_empty, is_Some_alt.
    destruct Ho as [->| ->]; rewrite !elem_of_cons, elem_of_nil; lia.
Qed.

(** C9, as amended.  Loading puts the cursor of every vehicle at 0, on a
    sequence that is not empty.  A step, whatever its order and whatever
    fails, keeps every cursor within its sequence and leaves the
    recordings as they are.  A turn of the loop moves the cursor of its
    vehicle by one, back to 0 from the end, when the location is
    persisted, and leaves it when it is not.  On a service that persists,
    after any number of steps each cursor has moved by that number modulo
    the length N of its sequence: from 0 it is back at 0 after N steps,
    and after N + 1 steps it is at 1, or at 0 when N is 1. *)
Theorem cursor_stays_within_and_wraps :
  (∀ (listing : option (list SpoofFile)) (w : world),
     updates (self w) = ∅ →
     at_start (self (parseUpdates listing w).1))
  ∧ (∀ (order : list Z) (w : world),
       cursors_within (self w) →
       cursors_within (self (spoof order w).1)
       ∧ updates (self (spoof order w).1) = updates (self w))
  ∧ (∀ (v : Z) (us : list Location) (w w' : world) (r : res bool),
       updates (self w) !! v = Some us → cursors_within (self w) →
       spoof_body v us w = (w', r) →
       cursor (self w') v
       = match r with
         | Ok true => ((cursor (self w) v + 1) `mod` len us)%Z
         | _ => cursor (self w) v
         end)
  ∧ (∀ (orders : list (list Z)) (w : world),
       persists_all (self w) → cursors_within (self w) →
       Forall (visits (self w)) orders →
       ∃ w' : world,
         for_range orders spoof w = (w', Ok tt)
         ∧ ∀ (v : Z) (us : list Location),
             updates (self w) !! v = Some us →
             cursor (self w') v
             = ((cursor (self w) v + len orders) `mod` len us)%Z
             ∧ (cursor (self w) v = 0%Z → len orders = len us →
                cursor (self w') v = 0%Z)
             ∧ (cursor (self w) v = 0%Z → len orders = (len us + 1)%Z →
                cursor (self w') v = if decide (len us = 1%Z) then 0%Z
                                     else 1%Z)).
Proof.
  split_and!.
  - intros [files|] w Hw; simpl.
    + apply parseUpdates_range_at_start. intros v us Hv.
      rewrite Hw in Hv. by rewrite lookup_empty in Hv.
    + intros v us Hv. rewrite Hw in Hv. by rewrite lookup_empty in Hv.
  - intros order w Hw.
    destruct (spoof_range_within order w Hw) as (H1 & H2 & _). done.
  - intros v us w w' r Hu Hw Hrun.
    pose proof (spoof_body_cases v us w) as Hb.
    pose proof (Hw v us Hu) as Hin.
    destruct (item_in_range us (cursor (self w) v) Hin) as (update & Hi).
    rewrite Hi, Hrun in Hb.
    destruct (ms_CreateLocation _ _ _); injection Hb as -> ->.
    + reflexivity.
    + rewrite cursor_after_spoof.
      rewrite decide_True by done. now apply advance_mod.
  - intros orders w Hp Hw Hv.
    destruct (steps_advance orders w Hp Hw Hv) as (w' & Hrun & Hc).
    exists w'. split; [exact Hrun|]. intros v us Hu.
    pose proof (Hw v us Hu) as Hin.
    rewrite (Hc v us Hu). split_and!.
    + reflexivity.
    + intros -> ->. rewrite Z.add_0_l. apply Z.mod_same. lia.
    + intros -> ->. rewrite Z.add_0_l.
      destruct (decide (len us = 1%Z)) as [->|Hne]; [reflexivity|].
      rewrite <- Z.add_mod_idemp_l, Z.mod_same by lia.
      rewrite Z.add_0_l. apply Z.mod_small. lia.
Qed.

(** Four steps on the recordings of the vehicles 7, with three places, and
    8, with one. *)
Lemma cursor_on_recordings :
  ∃ w' : world,
    for_range [[7; 8]; [8; 7]; [7; 8]; [7; 8]]%Z spoof
      (replaying (campus never)) = (w', Ok tt)
    ∧ cursor (self w') 7 = 1%Z
    ∧ cursors_within (self (spoof [8; 7]%Z (replaying (campus at_first))).1).
Proof.
  destruct cursor_stays_within_and_wraps as (_ & Hwithin & _ & Hsteps).
  assert (cursors_within (self (replaying (campus never)))) as Hw
    by apply at_start_within, replaying_at_start.
  destruct (Hsteps [[7; 8]; [8; 7]; [7; 8]; [7; 8]]%Z
              (replaying (campus never))) as (w' & Hrun & Hc).
  { intros n loc. reflexivity. }
  { exact Hw. }
  { repeat (apply Forall_cons; split; [apply replaying_visits; auto|]).
    constructor. }
  exists w'. split; [exact Hrun|]. split.
  - destruct (Hc 7%Z [place 7 1; place 7 2; place 7 3] eq_refl)
      as (_ & _ & H).
    apply (H eq_refl eq_refl).
  - apply Hwithin, at_start_within, replaying_at_start.
Defined.

(** C9, as stated, fails for a sequence of one place: the cursor of
    vehicle 8 is at 0 after two steps that persist, not at 1. *)
Lemma cursor_of_one_place_stays :
  ∃ w' : world,
    for_range [[7; 8]; [8; 7]]%Z spoof (replaying (campus never))
    = (w', Ok tt)
    ∧ updates (self (replaying (campus never))) !! 8%Z = Some [place 8 1]
    ∧ cursor (self w') 8 = 0%Z
    ∧ cursor (self w') 8 ≠ 1%Z.
Proof.
  destruct (steps_advance [[7; 8]; [8; 7]]%Z (replaying (campus never)))
    as (w' & Hrun & Hc).
  { intros n loc. reflexivity. }
  { apply at_start_within, replaying_at_start. }
  { repeat (apply Forall_cons; split; [apply replaying_visits; auto|]).
    constructor. }
  exists w'. rewrite (Hc 8%Z [place 8 1] eq_refl).
  split_and!; [exact Hrun|reflexivity|reflexivity|done].
Qed.

(** *** The ids and the times of the replayed locations *)

Lemma wrap64_small (z : Z) : (- 2 ^ 63 ≤ z < 2 ^ 63)%Z → wrap64 z = z.
Proof. intros H. unfold wrap64. rewrite Z.mod_small; lia. Qed.






End SpooferFacts.

(** ** The ids and the times of the locations that are persisted *)

Section PersistedFacts.
Import Geometry Samples.




End PersistedFacts.

(** * Further properties *)

(** ** Distances and the closest point *)

Section DistanceFacts.
Import Geometry Samples.
Local Open Scope R_scope.

Lemma haversine_swap (a b : R) : haversine (a - b) = haversine (b - a).
Proof.
  unfold haversine. replace (a - b) with (- (b - a)) by ring.
  now rewrite cos_neg.
Qed.

(** X1.  The distance from [p1] to [p2] is the distance from [p2] to
    [p1]. *)
Theorem DistanceBetween_symmetric (p1 p2 : Point) :
  DistanceBetween p1 p2 = DistanceBetween p2 p1.
Proof.
  unfold DistanceBetween.
  rewrite (haversine_swap (toRadians (Latitude p2))).
  rewrite (haversine_swap (toRadians (Longitude p2))).
  rewrite (Rmult_comm (cos (toRadians (Latitude p1)))).
  reflexivity.
Qed.

(** X2.  A distance is never negative, never more than half the way
    round the sphere, and the distance from a point to itself is 0. *)
Theorem DistanceBetween_bounds (p1 p2 : Point) :
  0 <= DistanceBetween p1 p2 <= PI * earthRadius
  ∧ DistanceBetween p1 p1 = 0.
Proof.
  split; [|apply DistanceBetween_same].
  split; [apply DistanceBetween_nonneg|].
  unfold DistanceBetween, earthRadius.
  match goal with |- context [asin ?a] =>
    pose proof (asin_bound a) as [_ Hhi] end.
  nra.
Qed.

(** The loop of [ClosestPointTo] after the points [pre], of which number
    [k] is the closest so far and the first such. *)
Lemma ClosestPointTo_range_first (latitude longitude : R)
    (points pre : list Point) (k : nat) (m : float64) :
  let d := fun p =>
    DistanceBetween p {| Latitude := latitude; Longitude := longitude |} in
  (pre = [] ∧ k = 0%nat ∧ m = PlusInf)
  ∨ (∃ p, pre !! k = Some p ∧ m = Finite (d p)
          ∧ ∀ (j : nat) (q : Point), pre !! j = Some q →
              d p <= d q ∧ ((j < k)%nat → d p < d q)) →
  let r := ClosestPointTo_range latitude longitude points (len pre)
             (Z.of_nat k) m in
  (pre ++ points = [] ∧ r = 0%Z)
  ∨ (∃ (kr : nat) (p : Point),
       r = Z.of_nat kr ∧ (pre ++ points) !! kr = Some p
       ∧ ∀ (j : nat) (q : Point), (pre ++ points) !! j = Some q →
           d p <= d q ∧ ((j < kr)%nat → d p < d q)).
Proof.
  intros d. revert pre k m.
  induction points as [|point points IH]; intros pre k m Hinv r.
  - subst r. simpl. rewrite app_nil_r.
    destruct Hinv as [(-> & -> & _)|(p & Hp & _ & Hmin)]; [now left|].
    right. now exists k, p.
  - subst r. simpl.
    assert (len (pre ++ [point]) = (len pre + 1)%Z) as Hlen
      by (unfold len; rewrite length_app; simpl; lia).
    replace (pre ++ point :: points) with ((pre ++ [point]) ++ points)
      by now rewrite <- app_assoc.
    fold (d point).
    destruct (below (d point) m) eqn:Hb.
    + rewrite <- Hlen.
      replace (len pre) with (Z.of_nat (length pre)) by reflexivity.
      apply IH. right. exists point. split_and!.
      * now rewrite lookup_app_r, Nat.sub_diag by lia.
      * reflexivity.
      * intros j q Hq.
        destruct (decide (j < length pre)%nat) as [Hj|Hj].
        -- rewrite lookup_app_l in Hq by lia.
           destruct Hinv as [(-> & _)|(p & Hp & -> & Hmin)];
             [simpl in Hj; lia|].
           simpl in Hb. apply bool_decide_eq_true_1 in Hb.
           destruct (Hmin j q Hq) as [Hle _]. split; [lra|intros _; lra].
        -- rewrite lookup_app_r in Hq by lia.
           apply list_lookup_singleton_Some in Hq as [Hj0 <-].
           split; [lra|lia].
    + rewrite <- Hlen. apply IH. right.
      destruct Hinv as [(_ & _ & ->)|(p & Hp & -> & Hmin)];
        [simpl in Hb; discriminate|].
      simpl in Hb. apply bool_decide_eq_false_1 in Hb.
      pose proof (lookup_lt_Some _ _ _ Hp) as Hk.
      exists p. split_and!.
      * now rewrite lookup_app_l by lia.
      * reflexivity.
      * intros j q Hq.
        destruct (decide (j < length pre)%nat) as [Hj|Hj].
        -- rewrite lookup_app_l in Hq by lia. now apply Hmin.
        -- rewrite lookup_app_r in Hq by lia.
           apply list_lookup_singleton_Some in Hq as [Hj0 <-].
           split; [lra|lia].
Qed.

(** X3.  On a route that has points, [ClosestPointTo] returns the index of
    a point of the route that no point of the route is closer than, and
    the first such: every point before it is farther. *)
Theorem ClosestPointTo_first_minimum (latitude longitude : R)
    (route : Route) :
  Points route ≠ [] →
  let target := {| Latitude := latitude; Longitude := longitude |} in
  ∃ p : Point,
    item (Points route) (ClosestPointTo latitude longitude route) = Ok p
    ∧ ∀ (j : nat) (q : Point), Points route !! j = Some q →
        DistanceBetween p target <= DistanceBetween q target
        ∧ ((Z.of_nat j < ClosestPointTo latitude longitude route)%Z →
           DistanceBetween p target < DistanceBetween q target).
Proof.
  intros Hne target. unfold ClosestPointTo.
  destruct (ClosestPointTo_range_first latitude longitude (Points route)
              [] 0%nat PlusInf) as [[Hnil _]|(kr & p & Hr & Hp & Hmin)].
  { now left. }
  { simpl in Hnil. contradiction. }
  simpl in Hr, Hp, Hmin. change (len []) with 0%Z in Hr.
  change (Z.of_nat 0) with 0%Z in Hr. rewrite Hr.
  exists p. split.
  - unfold item. destruct (Z.ltb_spec (Z.of_nat kr) 0); [lia|].
    now rewrite Nat2Z.id, Hp.
  - intros j q Hq. destruct (Hmin j q Hq) as [Hle Hlt].
    split; [exact Hle|]. intros Hj. apply Hlt. lia.
Qed.

(** The closest corner of the square to the origin. *)
Lemma ClosestPointTo_on_square :
  ∃ p : Point,
    item (Points square) (ClosestPointTo 0 0 square) = Ok p
    ∧ ∀ (j : nat) (q : Point), Points square !! j = Some q →
        DistanceBetween p origin <= DistanceBetween q origin
        ∧ ((Z.of_nat j < ClosestPointTo 0 0 square)%Z →
           DistanceBetween p origin < DistanceBetween q origin).
Proof.
  apply (ClosestPointTo_first_minimum 0 0 square). discriminate.
Defined.

End DistanceFacts.

(** ** Along the route *)

Section RouteFacts.
Import Geometry Samples.
Local Open Scope R_scope.

Lemma reached_mod (route : Route) (start : Z) (k : nat) :
  (0 ≤ start < len (Points route))%Z →
  reached route start k = ((start + Z.of_nat k) `mod` len (Points route))%Z.
Proof.
  intros Hs. induction k as [|k IH].
  - simpl. rewrite Z.add_0_r, Z.mod_small; lia.
  - simpl reached. rewrite IH. unfold next_index.
    set (n := len (Points route)) in *.
    replace (start + Z.of_nat (S k))%Z with (start + Z.of_nat k + 1)%Z by lia.
    rewrite <- (Z.add_mod_idemp_l (start + Z.of_nat k)) by lia.
    pose proof (Z.mod_pos_bound (start + Z.of_nat k) n) as Hb.
    set (r := ((start + Z.of_nat k) `mod` n)%Z) in *.
    destruct (Z.leb_spec n (r + 1)).
    + assert (r + 1 = n)%Z as -> by lia. now rewrite Z.mod_same by lia.
    + now rewrite Z.mod_small by lia.
Qed.

Lemma travelled_nonneg (route : Route) (start : Z) (k : nat) :
  0 <= travelled route start k.
Proof.
  induction k as [|k IH]; simpl; [lra|].
  pose proof (DistanceBetween_nonneg
                (point_at route (reached route start k))
                (point_at route (reached route start (S k)))).
  unfold leg. lra.
Qed.

(** The loop of [DistanceToPointAlongRoute] from the state that [j] legs
    leave, when [k] more legs lead to [stopindex] and fewer do not. *)
Lemma DistanceToPointAlongRoute_from (route : Route) (start stopindex : Z)
    (k : nat) :
  (0 ≤ start < len (Points route))%Z →
  ∀ (j fuel : nat),
    (∀ i : nat, (j ≤ i < j + k)%nat → reached route start i ≠ stopindex) →
    reached route start (j + k) = stopindex →
    (k ≤ fuel)%nat →
    DistanceToPointAlongRoute_loop fuel stopindex route
      (reached route start j) (travelled route start j)
    = Ok (travelled route start (j + k)).
Proof.
  intros Hs. induction k as [|k IH]; intros j fuel Hnot Hat Hfuel.
  - rewrite Nat.add_0_r in *.
    destruct fuel; simpl; rewrite Hat, Z.eqb_refl; reflexivity.
  - destruct fuel as [|fuel]; [lia|]. simpl.
    destruct (Z.eqb_spec (reached route start j) stopindex) as [He|_].
    { exfalso. apply (Hnot j); [lia|exact He]. }
    fold (next_index route (reached route start j)).
    rewrite (item_point_at route (reached route start j))
      by now apply reached_range.
    rewrite (item_point_at route (next_index route (reached route start j)))
      by now apply next_index_range, reached_range.
    simpl.
    replace (j + S k)%nat with (S j + k)%nat in * by lia.
    apply (IH (S j) fuel); [|assumption|lia].
    intros i Hi. apply Hnot. lia.
Qed.

(** X4.  Between two indices of the route, [DistanceToPointAlongRoute]
    returns, once the fuel covers the legs, the added length of the legs
    from [currentindex] forward to [stopindex], going round through 0 when
    [stopindex] is behind; that is 0 for the same index, and it is never
    negative. *)
Theorem DistanceToPointAlongRoute_sums_the_legs (fuel : nat)
    (currentindex stopindex : Z) (route : Route) :
  (0 ≤ currentindex < len (Points route))%Z →
  (0 ≤ stopindex < len (Points route))%Z →
  let k := Z.to_nat ((stopindex - currentindex) `mod` len (Points route)) in
  (k ≤ fuel)%nat →
  DistanceToPointAlongRoute fuel currentindex stopindex route
  = Ok (travelled route currentindex k)
  ∧ 0 <= travelled route currentindex k
  ∧ (currentindex = stopindex → travelled route currentindex k = 0).
Proof.
  intros Hc Hs k Hfuel. set (n := len (Points route)) in *.
  pose proof (Z.mod_pos_bound (stopindex - currentindex) n) as Hk.
  split_and!.
  - unfold DistanceToPointAlongRoute.
    apply (DistanceToPointAlongRoute_from route currentindex stopindex k Hc
             0%nat fuel); [| |exact Hfuel].
    + intros i Hi Heq. rewrite reached_mod in Heq by exact Hc.
      fold n in Heq. subst k.
      assert (Z.of_nat i < (stopindex - currentindex) `mod` n)%Z by lia.
      assert ((stopindex - currentindex) `mod` n = Z.of_nat i `mod` n)%Z
        as Hmod.
      { rewrite <- Heq.
        rewrite Zminus_mod_idemp_l.
        f_equal. lia. }
      rewrite (Z.mod_small (Z.of_nat i)) in Hmod by lia. lia.
    + rewrite reached_mod by exact Hc. fold n. simpl. subst k.
      rewrite Z2Nat.id by lia.
      rewrite Z.add_mod_idemp_r by lia.
      replace (currentindex + (stopindex - currentindex))%Z with stopindex
        by lia.
      apply Z.mod_small. lia.
  - apply travelled_nonneg.
  - intros ->. subst k. rewrite Z.sub_diag, Z.mod_0_l by lia. reflexivity.
Qed.

(** From corner 3 of the square to corner 1, through corner 0. *)
Lemma DistanceToPointAlongRoute_on_square :
  DistanceToPointAlongRoute 2 3 1 square = Ok (travelled square 3 2)
  ∧ 0 <= travelled square 3 2.
Proof.
  destruct (DistanceToPointAlongRoute_sums_the_legs 2 3 1 square)
    as (H1 & H2 & _).
  - unfold len; simpl; lia.
  - unfold len; simpl; lia.
  - apply Nat.leb_le. reflexivity.
  - split; [exact H1|exact H2].
Defined.

(** X5.  When [stopindex] is not an index of the route and differs from
    [currentindex], [DistanceToPointAlongRoute] does not return: the walk
    never meets [stopindex]. *)
Theorem DistanceToPointAlongRoute_misses_outside (fuel : nat)
    (currentindex stopindex : Z) (route : Route) :
  ¬ (0 ≤ stopindex < len (Points route))%Z →
  currentindex ≠ stopindex →
  ¬ is_Ok (DistanceToPointAlongRoute fuel currentindex stopindex route).
Proof.
  intros Hout. unfold DistanceToPointAlongRoute. generalize 0.
  revert currentindex.
  induction fuel as [|fuel IH]; intros index elapsed Hne [r Hr];
    simpl in Hr; destruct (Z.eqb_spec index stopindex) as [|_]; try done.
  destruct (item (Points route) index) as [p| |]; simpl in Hr; try done.
  set (index' := if (len (Points route) <=? index + 1)%Z then 0%Z
                 else (index + 1)%Z) in *.
  destruct (item (Points route) index') as [q| |] eqn:Hq; simpl in Hr;
    try done.
  apply (IH index' (elapsed + DistanceBetween p q)); [|now exists r].
  intros Heq. apply Hout. rewrite <- Heq.
  unfold item in Hq. destruct (Z.ltb_spec index' 0); [done|].
  destruct (Points route !! Z.to_nat index') eqn:E; [|done].
  apply lookup_lt_Some in E. unfold len. lia.
Qed.

(** The square has no corner 4. *)
Lemma DistanceToPointAlongRoute_off_square :
  ¬ is_Ok (DistanceToPointAlongRoute 100 0 4 square).
Proof.
  apply DistanceToPointAlongRoute_misses_outside.
  - unfold len; simpl; lia.
  - lia.
Defined.

(** X6.  [HeadingTowardTowardOrLeavingStop] returns for the indices of the
    stop collection, and panics for every other [stopIndex], so for an
    empty collection whatever the index. *)
Theorem HeadingTowardTowardOrLeavingStop_needs_the_stop
    (currentIndex stopIndex : Z) (route : Route) (ms : ModelService) :
  ((0 ≤ stopIndex < len (ms_Stops ms))%Z →
   is_Ok (HeadingTowardTowardOrLeavingStop currentIndex stopIndex route ms))
  ∧ (¬ (0 ≤ stopIndex < len (ms_Stops ms))%Z →
     HeadingTowardTowardOrLeavingStop currentIndex stopIndex route ms
     = Panic).
Proof.
  unfold HeadingTowardTowardOrLeavingStop. split.
  - intros Hin. destruct (item_in_range _ _ Hin) as (stop & ->). simpl.
    repeat case_match; eexists; reflexivity.
  - intros Hout. unfold item, len in *.
    destruct (Z.ltb_spec stopIndex 0); [reflexivity|].
    destruct (ms_Stops ms !! Z.to_nat stopIndex) eqn:E; [|reflexivity].
    apply lookup_lt_Some in E. lia.
Qed.

(** The stop 0 of the service, and no stop when there is none. *)
Lemma HeadingTowardTowardOrLeavingStop_on_campus :
  is_Ok (HeadingTowardTowardOrLeavingStop 0 0 square (campus never))
  ∧ HeadingTowardTowardOrLeavingStop 0 1 square (campus never) = Panic.
Proof.
  destruct (HeadingTowardTowardOrLeavingStop_needs_the_stop 0 0 square
              (campus never)) as [Hin _].
  destruct (HeadingTowardTowardOrLeavingStop_needs_the_stop 0 1 square
              (campus never)) as [_ Hout].
  split.
  - apply Hin. unfold len; simpl; lia.
  - apply Hout. unfold len; simpl; lia.
Defined.

End RouteFacts.

(** ** The prediction *)

Section PredictionFacts.
Import Geometry Samples.
Local Open Scope R_scope.

Lemma walk_spins_from (route : Route) (start : Z) (pd : R) (fuel : nat) :
  (0 ≤ start < len (Points route))%Z →
  ∀ j : nat,
    (∀ i : nat, (j ≤ i ≤ j + fuel)%nat → travelled route start i < pd) →
    NaivePredictPosition_walk fuel route (Finite pd)
      (reached route start j) (travelled route start j)
      (heading route start j)
    = Spinning.
Proof.
  intros Hs. induction fuel as [|fuel IH]; intros j Hbelow.
  - simpl. rewrite bool_decide_eq_true_2; [reflexivity|].
    apply Hbelow. lia.
  - rewrite walk_step; [|exact Hs|apply Hbelow; lia].
    apply IH. intros i Hi. apply Hbelow. lia.
Qed.

(** X7.  From an index of the route, the loop of [NaivePredictPosition] is
    still running when the fuel is spent if the legs that the fuel covers
    do not add up to [predictedDistance]; so it runs for ever on a route
    whose legs never add up to it. *)
Theorem NaivePredictPosition_walk_runs_on (fuel : nat) (route : Route)
    (start : Z) (pd : R) :
  (0 ≤ start < len (Points route))%Z →
  (∀ i : nat, (i ≤ fuel)%nat → travelled route start i < pd) →
  NaivePredictPosition_walk fuel route (Finite pd) start 0 0 = Spinning.
Proof.
  intros Hs Hbelow.
  apply (walk_spins_from route start pd fuel Hs 0%nat).
  intros i Hi. apply Hbelow. lia.
Qed.

Lemma travelled_depot (k : nat) : travelled depot 0 k = 0.
Proof.
  induction k as [|k IH]; [reflexivity|].
  simpl travelled. rewrite IH. unfold leg.
  assert (∀ i, reached depot 0 i = 0%Z) as Hr.
  { induction i as [|i IHi]; [reflexivity|]. simpl. now rewrite IHi. }
  rewrite !Hr, DistanceBetween_same. lra.
Qed.

(** On the route of one point the loop has not come to an end after five
    turns for a distance of one metre. *)
Lemma NaivePredictPosition_walk_on_depot :
  NaivePredictPosition_walk 5 depot (Finite 1) 0 0 0 = Spinning.
Proof.
  apply NaivePredictPosition_walk_runs_on.
  - unfold len; simpl; lia.
  - intros i _. rewrite travelled_depot. lra.
Defined.

Lemma DistanceToPointAlongRoute_loop_nonneg (fuel : nat) (stopindex : Z)
    (route : Route) (index : Z) (elapsed r : R) :
  0 <= elapsed →
  DistanceToPointAlongRoute_loop fuel stopindex route index elapsed = Ok r →
  0 <= r.
Proof.
  revert index elapsed. induction fuel as [|fuel IH]; intros index elapsed He;
    simpl; destruct (index =? stopindex)%Z; try (intros [= <-]; exact He);
    try done.
  destruct (item (Points route) index) as [p| |]; simpl; try done.
  destruct (item (Points route) _) as [q| |]; simpl; try done.
  apply IH. pose proof (DistanceBetween_nonneg p q). lra.
Qed.

(** X8.  The distance that [NaivePredictPosition] sets out to cover is never
    more than the constant speed gives: where it brakes for a stop, it is a
    finite distance not above [secondsSinceUpdate * Speed], or no distance
    at all. *)
Theorem NaivePredictPosition_distance_at_most_naive (fuel : nat)
    (lastUpdate : Location) (route : Route) (ms : ModelService)
    (now : time_Time) (index : Z) (pd : float64) :
  NaivePredictPosition_distance fuel lastUpdate route ms now
  = Ok (index, pd) →
  index = ClosestPointTo (loc_Latitude lastUpdate)
            (loc_Longitude lastUpdate) route
  ∧ match pd with
    | Finite d =>
        d <= Seconds (now - loc_Time lastUpdate) * loc_Speed lastUpdate
    | PlusInf => False
    | MinusInfOrNaN => True
    end.
Proof.
  unfold NaivePredictPosition_distance. intros H.
  destruct (ClosestStop fuel _ route ms) as [stopIndex| |]; simpl in H;
    try done.
  destruct (HeadingTowardTowardOrLeavingStop _ stopIndex route ms)
    as [headingToward| |]; simpl in H; try done.
  destruct (DistanceToPointAlongRoute fuel _ stopIndex route)
    as [distanceToStop| |] eqn:Hd; simpl in H; try done.
  apply DistanceToPointAlongRoute_loop_nonneg in Hd; [|lra].
  destruct (headingToward && bool_decide (distanceToStop < 30)).
  - unfold acceleration in H.
    destruct (bool_decide (2 * distanceToStop = 0)) eqn:Hz;
      injection H as <- <-; [done|].
    apply bool_decide_eq_false_1 in Hz. split; [reflexivity|].
    set (t := Seconds (now - loc_Time lastUpdate)).
    set (v := loc_Speed lastUpdate).
    assert (0 < 2 * distanceToStop) as Hpos by lra.
    pose proof (Rinv_0_lt_compat _ Hpos) as Hq.
    unfold Rdiv. set (q := / (2 * distanceToStop)) in *.
    assert (0 <= (v * t) * (v * t) * q) as Ha.
    { apply Rmult_le_pos; [|lra]. apply Rle_0_sqr. }
    nra.
  - injection H as <- <-. split; [reflexivity|lra].
Qed.

(** The vehicle that stands on the route of one point. *)
Lemma NaivePredictPosition_distance_on_depot :
  0%Z = ClosestPointTo (loc_Latitude (seen 1)) (loc_Longitude (seen 1)) depot
  ∧ Seconds (5 - 0) * 0 <= Seconds (5 - loc_Time (seen 1)) * loc_Speed (seen 1).
Proof.
  apply (NaivePredictPosition_distance_at_most_naive 0 (seen 1) depot
           (campus never) 5 0 (Finite (Seconds (5 - 0) * 0))).
  now apply (NaivePredictPosition_distance_one_point 0 (seen 1) depot
               (campus never) 5 origin).
Defined.

(** X9.  [ClosestStop] returns only for a route that lists no stop, and
    then it returns 0; for a route that lists a stop it panics or runs
    on, whatever the stops, the index and the fuel. *)
Theorem ClosestStop_returns_without_stops_only (fuel : nat)
    (currentIndex : Z) (route : Route) (ms : ModelService) :
  (StopIDs route = [] → ClosestStop fuel currentIndex route ms = Ok 0%Z)
  ∧ (StopIDs route ≠ [] → ¬ is_Ok (ClosestStop fuel currentIndex route ms)).
Proof.
  split; [apply ClosestStop_no_stop_id|apply ClosestStop_not_Ok].
Qed.

(** The route of one point without stops, and the square with the stop 1
    on it. *)
Lemma ClosestStop_on_depot_and_square :
  ClosestStop 3 0 depot (campus never) = Ok 0%Z
  ∧ ¬ is_Ok (ClosestStop 3 0
               {| route_ID := 2; Points := Points square; StopIDs := [1%Z] |}
               (campus never)).
Proof.
  split.
  - now apply (ClosestStop_returns_without_stops_only 3 0 depot
                 (campus never)).
  - now apply (ClosestStop_returns_without_stops_only 3 0
                 {| route_ID := 2; Points := Points square;
                    StopIDs := [1%Z] |} (campus never)).
Defined.

(** X10.  When [NaivePredictPosition] returns a prediction, the route lists
    no stop and the service has a stop; the prediction carries the id of
    the vehicle, its index is an index of the route and its point the
    point of the route at that index. *)
Theorem NaivePredictPosition_returns_a_point_of_the_route (fuel : nat)
    (vehicle : option Vehicle) (lastUpdate : option Location)
    (route : option Route) (ms : ModelService) (now : time_Time)
    (p : Prediction) :
  NaivePredictPosition fuel vehicle lastUpdate route ms now = Ok p →
  ∃ (v : Vehicle) (r : Route),
    vehicle = Some v ∧ route = Some r
    ∧ StopIDs r = [] ∧ ms_Stops ms ≠ []
    ∧ pred_VehicleID p = vehicle_ID v
    ∧ item (Points r) (pred_Index p) = Ok (pred_Point p).
Proof.
  unfold NaivePredictPosition. intros H.
  destruct lastUpdate as [u|]; simpl in H; [|done].
  destruct route as [r|]; simpl in H; [|done].
  destruct (NaivePredictPosition_distance fuel u r ms now)
    as [[index pd]| |] eqn:Hd; simpl in H; try done.
  destruct (NaivePredictPosition_walk fuel r pd index 0 0)
    as [[index' angle]| |]; simpl in H; try done.
  destruct vehicle as [v|]; simpl in H; [|done].
  destruct (item (Points r) index') as [point| |] eqn:Hp; simpl in H;
    try done.
  injection H as <-. exists v, r. simpl. split_and!; try done.
  - destruct (StopIDs r) as [|s l] eqn:Hs; [done|]. exfalso.
    unfold NaivePredictPosition_distance in Hd.
    destruct (ClosestStop fuel _ r ms) as [stopIndex| |] eqn:Hc;
      simpl in Hd; try done.
    eapply ClosestStop_not_Ok; [|exists stopIndex; exact Hc].
    now rewrite Hs.
  - intros Hst. unfold NaivePredictPosition_distance in Hd.
    destruct (ClosestStop fuel _ r ms) as [stopIndex| |]; simpl in Hd;
      try done.
    unfold HeadingTowardTowardOrLeavingStop in Hd. rewrite Hst in Hd.
    unfold item in Hd. destruct (stopIndex <? 0)%Z; simpl in Hd; done.
Qed.

(** The prediction for the vehicle that stands on the route of one
    point. *)
Lemma NaivePredictPosition_on_depot :
  ∃ (v : Vehicle) (r : Route),
    Some {| vehicle_ID := 1 |} = Some v ∧ Some depot = Some r
    ∧ StopIDs r = [] ∧ ms_Stops (campus never) ≠ []
    ∧ pred_VehicleID (parked 1) = vehicle_ID v
    ∧ item (Points r) (pred_Index (parked 1)) = Ok (pred_Point (parked 1)).
Proof.
  apply (NaivePredictPosition_returns_a_point_of_the_route 0
           (Some {| vehicle_ID := 1 |}) (Some (seen 1)) (Some depot)
           (campus never) 5 (parked 1)).
  apply NaivePredictPosition_parked.
Defined.

End PredictionFacts.

(** ** The active vehicles of the tracking manager *)

Section ActiveFacts.
Import Geometry Manager Samples.

(** [position] finds the first place of [id], counted from [i]. *)
Lemma position_spec (ids : list Z) (id : Z) (i : Z) :
  ((id ∉ ids) ∧ position ids id i = (-1)%Z)
  ∨ (∃ k : nat, ids !! k = Some id
                ∧ (∀ j : nat, (j < k)%nat → ids !! j ≠ Some id)
                ∧ position ids id i = (i + Z.of_nat k)%Z).
Proof.
  revert i. induction ids as [|x ids IH]; intros i; simpl.
  - left. split; [apply not_elem_of_nil|reflexivity].
  - destruct (Z.eqb_spec x id) as [->|Hne].
    + right. exists 0%nat. split_and!; [reflexivity| |lia].
      intros j Hj. lia.
    + destruct (IH (i + 1)%Z) as [[Hnot Hpos]|(k & Hk & Hfirst & Hpos)].
      * left. split; [|exact Hpos].
        intros [?|?]%elem_of_cons; [congruence|done].
      * right. exists (S k). split_and!; [exact Hk| |lia].
        intros [|j] Hj; simpl; [congruence|]. apply Hfirst. lia.
Qed.

(** Taking out the first place of [id] by putting the last element there
    and cutting the list by one. *)
Lemma swap_remove_spec (ids : list Z) (id final : Z) (k : nat) :
  NoDup ids → ids !! k = Some id → last ids = Some final →
  let ids' := take (length ids - 1) (<[k := final]> ids) in
  NoDup ids' ∧ (id ∉ ids') ∧ ∀ v : Z, v ≠ id → (v ∈ ids' ↔ v ∈ ids).
Proof.
  intros Hnd Hk Hlast ids'.
  pose proof (lookup_lt_Some _ _ _ Hk) as Hklt.
  assert (ids !! (length ids - 1)%nat = Some final) as Hfin.
  { rewrite last_lookup in Hlast.
    replace (length ids - 1)%nat with (pred (length ids)) by lia.
    exact Hlast. }
  assert (∀ (j : nat) (x : Z), ids' !! j = Some x →
            (j < length ids - 1)%nat
            ∧ ((j = k ∧ x = final) ∨ (j ≠ k ∧ ids !! j = Some x))) as Hget.
  { intros j x Hj. unfold ids' in Hj.
    apply lookup_take_Some in Hj as [Hj Hlt]. split; [exact Hlt|].
    destruct (decide (j = k)) as [->|Hne].
    - rewrite list_lookup_insert_eq in Hj by lia. left. split; congruence.
    - rewrite list_lookup_insert_ne in Hj by done. now right. }
  assert (∀ (j : nat) (x : Z), (j < length ids - 1)%nat → j ≠ k →
            ids !! j = Some x → ids' !! j = Some x) as Hput.
  { intros j x Hlt Hne Hj. unfold ids'.
    rewrite lookup_take_lt by exact Hlt.
    now rewrite list_lookup_insert_ne by done. }
  assert (∀ i j x, ids !! i = Some x → ids !! j = Some x → i = j) as Hinj.
  { now apply NoDup_alt. }
  split_and!.
  - apply NoDup_alt. intros i j x Hi Hj.
    destruct (Hget i x Hi) as [Hil [[Hik Hix]|[Hik Hi']]];
      destruct (Hget j x Hj) as [Hjl [[Hjk Hjx]|[Hjk Hj']]].
    + congruence.
    + subst x. pose proof (Hinj _ _ _ Hfin Hj'). lia.
    + subst x. pose proof (Hinj _ _ _ Hfin Hi'). lia.
    + now apply (Hinj i j x).
  - intros (j & Hj)%list_elem_of_lookup_1.
    destruct (Hget j id Hj) as [Hjl [[Hjk Hjx]|[Hjk Hj']]].
    + subst final. pose proof (Hinj _ _ _ Hfin Hk). lia.
    + pose proof (Hinj _ _ _ Hk Hj'). lia.
  - intros v Hv. split.
    + intros (j & Hj)%list_elem_of_lookup_1.
      destruct (Hget j v Hj) as [Hjl [[Hjk Hjx]|[Hjk Hj']]].
      * subst v. now apply list_elem_of_lookup_2 in Hfin.
      * now apply list_elem_of_lookup_2 in Hj'.
    + intros (j & Hj)%list_elem_of_lookup_1.
      assert (j ≠ k) as Hjk by (intros ->; congruence).
      pose proof (lookup_lt_Some _ _ _ Hj) as Hjlt.
      destruct (decide (j < length ids - 1)%nat) as [Hlt|Hge].
      * apply (list_elem_of_lookup_2 _ j). now apply Hput.
      * assert (j = length ids - 1)%nat as -> by lia.
        assert (v = final) as -> by congruence.
        apply (list_elem_of_lookup_2 _ k). unfold ids'.
        rewrite lookup_take_lt by lia.
        now rewrite list_lookup_insert_eq by lia.
Qed.

Lemma active_after_spec (ids : list Z) (vehicleID : Z) (routeID : option Z) :
  NoDup ids →
  NoDup (active_after ids vehicleID routeID)
  ∧ (vehicleID ∈ active_after ids vehicleID routeID ↔ routeID ≠ None)
  ∧ ∀ v : Z, v ≠ vehicleID →
      (v ∈ active_after ids vehicleID routeID ↔ v ∈ ids).
Proof.
  intros Hnd. unfold active_after.
  destruct (position_spec ids vehicleID 0)
    as [[Hnot ->]|(k & Hk & _ & ->)]; destruct routeID as [rid|]; simpl.
  - split_and!.
    + apply NoDup_app. split_and!; [done| |apply NoDup_singleton].
      intros x Hx [->|[]%elem_of_nil]%elem_of_cons. done.
    + split; [done|]. intros _. apply elem_of_app. right.
      apply list_elem_of_here.
    + intros v Hv. rewrite elem_of_app, elem_of_cons, elem_of_nil. tauto.
  - split_and!; [done| |done]. split; [done|congruence].
  - destruct (Z.ltb_spec (0 + Z.of_nat k) 0); [lia|].
    split_and!; [done| |done].
    split; [done|]. intros _. now apply list_elem_of_lookup_2 in Hk.
  - destruct (Z.leb_spec 0 (0 + Z.of_nat k)); [|lia].
    destruct (last ids) as [final|] eqn:Hlast.
    + replace (Z.to_nat (0 + Z.of_nat k)) with k by lia.
      destruct (swap_remove_spec ids vehicleID final k Hnd Hk Hlast)
        as (H1 & H2 & H3).
      split_and!; [done| |done]. split; [done|congruence].
    + apply last_None in Hlast. subst ids. now rewrite lookup_nil in Hk.
Qed.

(** [locationSubscriber] for a location that has a vehicle id. *)
Lemma locationSubscriber_runs (l : Location) (vehicleID : Z) (w : world) :
  loc_VehicleID l = Some vehicleID →
  ∃ w' : world,
    locationSubscriber (Some l) w = (w', Ok tt)
    ∧ updates (self w') = <[vehicleID := l]> (updates (self w))
    ∧ vehicleIDs (self w')
      = active_after (vehicleIDs (self w)) vehicleID (loc_RouteID l)
    ∧ predictions (self w') = predictions (self w)
    ∧ subscribers (self w') = subscribers (self w)
    ∧ ms (self w') = ms (self w)
    ∧ predictUpdates (self w') = predictUpdates (self w)
    ∧ created (env w') = created (env w)
    ∧ called (env w') = called (env w).
Proof.
  intros Hv. destruct w as [stm e].
  unfold locationSubscriber, active_after, mbind, M_bind, lift, gets,
    set_self, when, modify, mret, M_ret, log, set_env.
  simpl. rewrite Hv. simpl.
  destruct (loc_RouteID l) as [rid|]; simpl;
    destruct (position (vehicleIDs stm) vehicleID 0 <? 0)%Z eqn:Hneg;
    try (destruct (0 <=? position (vehicleIDs stm) vehicleID 0)%Z eqn:Hpos);
    simpl; destruct (predictions stm !! vehicleID); simpl;
    eexists; (split; [reflexivity|]); simpl; split_and!; reflexivity.
Qed.

(** X11.  [locationSubscriber] panics on a nil location and does nothing
    for a location without vehicle id.  For a location with a vehicle id
    it ends well, has made the location the last one of that vehicle and
    of no other, and has touched neither the predictions, the subscribers
    nor the service: it persists nothing and calls nobody. *)
Theorem locationSubscriber_records (w : world) :
  locationSubscriber None w = (w, Panic)
  ∧ (∀ l : Location, loc_VehicleID l = None →
       locationSubscriber (Some l) w = (w, Ok tt))
  ∧ (∀ (l : Location) (vehicleID : Z), loc_VehicleID l = Some vehicleID →
       ∃ w' : world,
         locationSubscriber (Some l) w = (w', Ok tt)
         ∧ updates (self w') !! vehicleID = Some l
         ∧ (∀ v : Z, v ≠ vehicleID →
              updates (self w') !! v = updates (self w) !! v)
         ∧ predictions (self w') = predictions (self w)
         ∧ subscribers (self w') = subscribers (self w)
         ∧ created (env w') = created (env w)
         ∧ called (env w') = called (env w)).
Proof.
  split_and!.
  - reflexivity.
  - intros l Hl. unfold locationSubscriber, mbind, M_bind, lift. simpl.
    now rewrite Hl.
  - intros l vehicleID Hl.
    destruct (locationSubscriber_runs l vehicleID w Hl)
      as (w' & Hrun & Hu & _ & Hp & Hs & _ & _ & Hc & Hca).
    exists w'. rewrite Hu. split_and!; try done.
    + apply lookup_insert_eq.
    + intros v Hv. now apply lookup_insert_ne.
Qed.

(** The first location of vehicle 1 that a new manager sees. *)
Lemma locationSubscriber_on_fresh :
  ∃ w' : world,
    locationSubscriber (Some (seen 1)) (fresh (campus never) true)
    = (w', Ok tt)
    ∧ updates (self w') !! 1%Z = Some (seen 1)
    ∧ called (env w') = [].
Proof.
  destruct (locationSubscriber_records (fresh (campus never) true))
    as (_ & _ & H).
  destruct (H (seen 1) 1%Z eq_refl) as (w' & Hrun & Hu & _ & _ & _ & _ & Hc).
  exists w'. split_and!; assumption.
Defined.

(** X12.  On a list of active vehicles without repetition, a location with
    a vehicle id leaves a list without repetition in which that vehicle is
    if and only if the location has a route id, and in which every other
    vehicle is if and only if it was: a vehicle whose location has no
    route id is taken out, wherever it was in the list. *)
Theorem locationSubscriber_active_iff (l : Location) (vehicleID : Z)
    (w : world) :
  NoDup (vehicleIDs (self w)) →
  loc_VehicleID l = Some vehicleID →
  let w' := (locationSubscriber (Some l) w).1 in
  NoDup (vehicleIDs (self w'))
  ∧ (vehicleID ∈ vehicleIDs (self w') ↔ loc_RouteID l ≠ None)
  ∧ ∀ v : Z, v ≠ vehicleID →
      (v ∈ vehicleIDs (self w') ↔ v ∈ vehicleIDs (self w)).
Proof.
  intros Hnd Hl.
  destruct (locationSubscriber_runs l vehicleID w Hl)
    as (w' & Hrun & _ & Hids & _).
  cbv zeta. rewrite Hrun. cbn [fst]. rewrite Hids.
  now apply active_after_spec.
Qed.

(** Vehicle 1 leaves its route while the vehicles 1 and 2 are active. *)
Lemma locationSubscriber_takes_out :
  let off :=
    {| loc_ID := 50; loc_TrackerID := "tracker"; loc_Latitude := 0;
       loc_Longitude := 0; loc_Heading := 0; loc_Speed := 0;
       loc_Time := 9; loc_Created := 9; loc_VehicleID := Some 1%Z;
       loc_RouteID := None |} in
  let w' := (locationSubscriber (Some off)
               (tracking (campus never) [1; 2]%Z)).1 in
  NoDup (vehicleIDs (self w'))
  ∧ ¬ (1%Z ∈ vehicleIDs (self w'))
  ∧ 2%Z ∈ vehicleIDs (self w').
Proof.
  intros off w'.
  destruct (locationSubscriber_active_iff off 1%Z
              (tracking (campus never) [1; 2]%Z)) as (H1 & H2 & H3).
  - by apply (bool_decide_unpack _).
  - reflexivity.
  - split; [exact H1|]. split.
    + intros Hin. apply H2 in Hin. now apply Hin.
    + apply H3; [lia|]. simpl. apply list_elem_of_further, list_elem_of_here.
Defined.

(** The steps of a firing keep what they read of the manager. *)
Lemma steps_keep (fuel : nat) (ids : list Z) (w : world) :
  let w' := (for_range ids (predictVehiclePosition fuel) w).1 in
  vehicleIDs (self w') = vehicleIDs (self w)
  ∧ predictUpdates (self w') = predictUpdates (self w)
  ∧ ∀ v : Z, is_Some (predictions (self w) !! v) →
             is_Some (predictions (self w') !! v).
Proof.
  revert w. induction ids as [|id ids IH]; intros w; cbv zeta; [done|].
  destruct (predictVehiclePosition_cases fuel id w)
    as [(v & u & rid & r & p & e1 & e2 & _ & _ & _ & _ & _ & Hrun)
       |(w1 & (Hs & _) & [Hrun|Hrun])].
  - rewrite (for_range_cons _ _ _ _ _ Hrun).
    destruct (IH (after_prediction w v u r p e1 e2)) as (H1 & H2 & H3).
    split_and!; [now rewrite H1|now rewrite H2|].
    intros k Hk. apply H3. simpl.
    destruct (decide (vehicle_ID v = k)) as [->|Hne].
    + rewrite lookup_insert_eq. eauto.
    + now rewrite lookup_insert_ne.
  - rewrite (for_range_stops _ _ _ _ _ _ Hrun) by done. simpl.
    now rewrite Hs.
  - rewrite (for_range_stops _ _ _ _ _ _ Hrun) by done. simpl.
    now rewrite Hs.
Qed.

(** X13.  A firing of the ticker, however it ends, leaves the last
    locations, the active vehicles, the subscribers and the service of the
    manager as they were, and forgets no prediction. *)
Theorem tick_keeps_what_it_reads (fuel : nat) (w : world) :
  let w' := (tick fuel w).1 in
  updates (self w') = updates (self w)
  ∧ vehicleIDs (self w') = vehicleIDs (self w)
  ∧ subscribers (self w') = subscribers (self w)
  ∧ ms (self w') = ms (self w)
  ∧ ∀ v : Z, is_Some (predictions (self w) !! v) →
             is_Some (predictions (self w') !! v).
Proof.
  cbv zeta. unfold tick, mbind, M_bind, gets.
  destruct (steps_leave fuel (vehicleIDs (self w)) w)
    as (_ & _ & Hm & Hu & Hs & _).
  destruct (steps_keep fuel (vehicleIDs (self w)) w) as (Hi & _ & Hp).
  done.
Qed.

(** X14.  That the active vehicles are, each once, the vehicles whose last
    location has a route id is kept by [locationSubscriber], whatever the
    location, and by a firing of the ticker. *)
Theorem mirrors_is_kept (w : world) :
  mirrors (self w) →
  (∀ loc : option Location, mirrors (self (locationSubscriber loc w).1))
  ∧ (∀ fuel : nat, mirrors (self (tick fuel w).1)).
Proof.
  intros [Hnd Hiff]. split.
  - intros [l|]; [|done].
    destruct (loc_VehicleID l) as [vehicleID|] eqn:Hl.
    2: { unfold locationSubscriber, mbind, M_bind, lift. simpl.
         rewrite Hl. done. }
    destruct (locationSubscriber_runs l vehicleID w Hl)
      as (w' & Hrun & Hu & Hids & _).
    rewrite Hrun. cbn [fst].
    destruct (active_after_spec (vehicleIDs (self w)) vehicleID
                (loc_RouteID l) Hnd) as (H1 & H2 & H3).
    split; [now rewrite Hids|].
    intros v. rewrite Hids, Hu.
    destruct (decide (v = vehicleID)) as [->|Hne].
    + rewrite H2, lookup_insert_eq. split.
      * intros Hr. now exists l.
      * intros (u & [= <-] & Hr). exact Hr.
    + rewrite (H3 v Hne), lookup_insert_ne by done. apply Hiff.
  - intros fuel.
    unfold tick, mbind, M_bind, gets.
    destruct (steps_leave fuel (vehicleIDs (self w)) w)
      as (_ & _ & _ & Hu & _).
    destruct (steps_keep fuel (vehicleIDs (self w)) w) as (Hi & _).
    cbv zeta in *. unfold mirrors. now rewrite Hi, Hu.
Qed.

(** It holds for a new manager, which then sees vehicle 1 on a route. *)
Lemma mirrors_on_fresh :
  mirrors (self (locationSubscriber (Some (seen 1))
                   (fresh (campus never) true)).1)
  ∧ mirrors (self (tick 0 (fresh (campus never) true)).1).
Proof.
  destruct (mirrors_is_kept (fresh (campus never) true)) as [H1 H2].
  - split; [constructor|]. intros v. simpl. split.
    + intros []%elem_of_nil.
    + intros (u & Hu & _). by rewrite lookup_empty in Hu.
  - split; [apply H1|apply H2].
Defined.

End ActiveFacts.

(** ** Subscribers and idle managers *)

Section NotifyFacts.
Import Geometry Manager Samples.

Lemma for_range_call_prediction (subs : list nat) (p : Prediction)
    (w : world) :
  for_range subs (fun sub => call sub p) w
  = ({| self := self w;
        env :=
          {| clock := clock (env w); reads := reads (env w);
             created := created (env w); logged := logged (env w);
             called := called (env w) ++ map (fun sub => (sub, p)) subs |}
     |}, Ok tt).
Proof.
  revert w. induction subs as [|sub subs IH]; intros [s e]; simpl.
  - rewrite app_nil_r. now destruct e.
  - unfold mbind, M_bind, call at 1, set_env, modify. simpl.
    rewrite IH. simpl. now rewrite <- app_assoc.
Qed.

(** X15.  [handleNewPrediction] panics on a nil prediction and leaves the
    state as it was.  For a prediction it ends well, has put the
    prediction in the cache under its vehicle id, and has called every
    subscriber once with it, in the order in which they subscribed; a
    callback that subscribes just before is called last. *)
Theorem handleNewPrediction_calls_everyone (p : Prediction) (w : world) :
  handleNewPrediction None w = (w, Panic)
  ∧ (∃ w' : world,
       handleNewPrediction (Some p) w = (w', Ok tt)
       ∧ predictions (self w')
         = <[pred_VehicleID p := p]> (predictions (self w))
       ∧ called (env w')
         = called (env w) ++ map (fun sub => (sub, p)) (subscribers (self w))
       ∧ subscribers (self w') = subscribers (self w)
       ∧ created (env w') = created (env w))
  ∧ (∀ sub : nat,
       ∃ w' : world,
         (Subscribe sub;; handleNewPrediction (Some p)) w = (w', Ok tt)
         ∧ called (env w')
           = called (env w)
             ++ map (fun sub => (sub, p)) (subscribers (self w))
             ++ [(sub, p)]).
Proof.
  split_and!.
  - reflexivity.
  - unfold handleNewPrediction, mbind, M_bind, lift, set_self, modify, gets.
    simpl. rewrite for_range_call_prediction. simpl.
    eexists. split; [reflexivity|]. done.
  - intros sub.
    unfold Subscribe, handleNewPrediction, mbind, M_bind, lift, set_self,
      modify, gets.
    simpl. rewrite for_range_call_prediction. simpl.
    eexists. split; [reflexivity|]. simpl. now rewrite map_app.
Qed.

(** X16.  A manager that is not enabled, or that has no active vehicle,
    is left as it was by [Run], however many times the ticker fires: it
    reads no clock, persists nothing and writes nothing to the log. *)
Theorem Run_idle (fuel n : nat) (w : world) :
  predictUpdates (self w) = false ∨ vehicleIDs (self w) = [] →
  Run fuel n w = (w, Ok tt).
Proof.
  intros H. unfold Run, mbind, M_bind, gets, when.
  destruct (predictUpdates (self w)) eqn:He; [|reflexivity].
  destruct H as [H|H]; [discriminate|].
  assert (tick fuel w = (w, Ok tt)) as Ht.
  { unfold tick, mbind, M_bind, gets. now rewrite H. }
  induction n as [|n IH]; [reflexivity|].
  cbn [ticks]. unfold mbind, M_bind. rewrite Ht. exact IH.
Qed.

(** A new manager, enabled but without a vehicle, and the manager with the
    vehicles 1 and 2 when it is not enabled. *)
Lemma Run_idle_on_fresh :
  Run 5 3 (fresh (campus never) true) = (fresh (campus never) true, Ok tt)
  ∧ Run 5 3 (fresh (campus never) false)
    = (fresh (campus never) false, Ok tt).
Proof.
  split.
  - apply (Run_idle 5 3 (fresh (campus never) true)). now right.
  - apply (Run_idle 5 3 (fresh (campus never) false)). now left.
Defined.

(** X17.  A step of the manager ends well exactly when the service gives
    the vehicle, the manager holds a last location of it with a route id,
    the service gives the route, and [NaivePredictPosition] returns; it
    then has called [CreateLocation] once.  Every other step ends in a
    panic or does not end, and has left the manager, the calls of
    [CreateLocation] and the callbacks as they were. *)
Theorem predictVehiclePosition_ends_well_iff (fuel : nat) (id : Z)
    (w : world) :
  ((predictVehiclePosition fuel id w).2 = Ok tt
   ↔ ∃ v u rid r p e1 e2,
       ms_Vehicle (ms (self w)) id = (Some v, e1)
       ∧ updates (self w) !! vehicle_ID v = Some u
       ∧ loc_RouteID u = Some rid
       ∧ ms_Route (ms (self w)) rid = (Some r, e2)
       ∧ NaivePredictPosition fuel (Some v) (Some u) (Some r) (ms (self w))
           (clock (env w) (reads (env w))) = Ok p)
  ∧ ((predictVehiclePosition fuel id w).2 = Ok tt →
     length (created (env (predictVehiclePosition fuel id w).1))
     = S (length (created (env w))))
  ∧ ((predictVehiclePosition fuel id w).2 ≠ Ok tt →
     self (predictVehiclePosition fuel id w).1 = self w
     ∧ created (env (predictVehiclePosition fuel id w).1) = created (env w)
     ∧ called (env (predictVehiclePosition fuel id w).1) = called (env w)).
Proof.
  destruct (predictVehiclePosition_cases fuel id w)
    as [(v & u & rid & r & p & e1 & e2 & Hv & Hu & Hrid & Hr & Hp & Hrun)
       |(w1 & (Hs & Hc & Hcr & Hca) & [Hrun|Hrun])]; rewrite Hrun; simpl.
  - split_and!.
    + split; [|done]. intros _. now exists v, u, rid, r, p, e1, e2.
    + intros _. rewrite length_app. simpl. lia.
    + done.
  - split_and!; [|done|done].
    split; [done|].
    intros (v & u & rid & r & p & e1 & e2 & Hv & Hu & Hrid & Hr & Hp).
    rewrite (predictVehiclePosition_runs fuel id w v u rid r p e1 e2)
      in Hrun by assumption.
    discriminate.
  - split_and!; [|done|done].
    split; [done|].
    intros (v & u & rid & r & p & e1 & e2 & Hv & Hu & Hrid & Hr & Hp).
    rewrite (predictVehiclePosition_runs fuel id w v u rid r p e1 e2)
      in Hrun by assumption.
    discriminate.
Qed.

(** The steps of the vehicles 1, which stands on its route, and 3, which
    the service does not know. *)
Lemma predictVehiclePosition_on_campus :
  length (created (env (predictVehiclePosition 0 1
                          (tracking (campus never) [1; 3]%Z)).1)) = 1%nat
  ∧ self (predictVehiclePosition 0 3 (tracking (campus never) [1; 3]%Z)).1
    = self (tracking (campus never) [1; 3]%Z).
Proof.
  destruct (predictVehiclePosition_ends_well_iff 0 1
              (tracking (campus never) [1; 3]%Z)) as (Hiff & Hone & _).
  destruct (predictVehiclePosition_ends_well_iff 0 3
              (tracking (campus never) [1; 3]%Z)) as (_ & _ & Hnot).
  split.
  - apply Hone. apply Hiff.
    exists {| vehicle_ID := 1 |}, (seen 1), 1%Z, depot, (parked 1), false,
      false.
    split_and!; try reflexivity. apply NaivePredictPosition_parked.
  - now apply Hnot.
Defined.

End NotifyFacts.

(** ** Loading the recordings *)

Section LoadingFacts.
Import Spoofer Samples.

(** The loop of [parseUpdates], entry by entry. *)
Lemma parseUpdates_range_cons (f : SpoofFile) (files : list SpoofFile)
    (w : world) :
  parseUpdates_range (f :: files) w
  = if loadable f then
      if file_open_fails f
      then (noted "Error opening spoof data file %s" w, Ok tt)
      else parseUpdates_range files (after_file f w)
    else parseUpdates_range files w.
Proof.
  destruct w as [s e]. simpl. unfold loadable, after_file, noted.
  destruct (negb (file_IsDir f) && file_json f); [|reflexivity].
  destruct (file_open_fails f); [reflexivity|].
  unfold mbind, M_bind, when, log, set_env, set_self, modify, mret, M_ret.
  destruct (file_read_fails f); simpl;
    (destruct (file_updates f) as [|first rest]; simpl; [reflexivity|];
     destruct (loc_VehicleID first); reflexivity).
Qed.

(** X18.  [parseUpdates] passes over the entries that are directories or
    whose names do not end in json: the result is that of the other
    entries alone. *)
Theorem parseUpdates_reads_json_files_only (files : list SpoofFile)
    (w : world) :
  parseUpdates (Some files) w
  = parseUpdates (Some (filter (fun f => loadable f = true) files)) w.
Proof.
  simpl. revert w. induction files as [|f files IH]; intros w; [reflexivity|].
  rewrite parseUpdates_range_cons.
  destruct (loadable f) eqn:Hl.
  - rewrite filter_cons_True by exact Hl.
    rewrite parseUpdates_range_cons, Hl.
    destruct (file_open_fails f); [reflexivity|apply IH].
  - rewrite filter_cons_False by (rewrite Hl; discriminate). apply IH.
Qed.

(** X19.  An entry that [parseUpdates] reads and cannot open ends the
    loading: the entries that follow it have no effect. *)
Theorem parseUpdates_stops_at_unopened (pre post : list SpoofFile)
    (f : SpoofFile) (w : world) :
  loadable f = true → file_open_fails f = true →
  parseUpdates (Some (pre ++ f :: post)) w
  = parseUpdates (Some (pre ++ [f])) w.
Proof.
  intros Hl Ho. simpl. revert w.
  induction pre as [|g pre IH]; intros w; simpl app.
  - now rewrite !parseUpdates_range_cons, Hl, Ho.
  - rewrite !parseUpdates_range_cons.
    destruct (loadable g); [|apply IH].
    destruct (file_open_fails g); [reflexivity|apply IH].
Qed.

(** The recordings behind an entry that cannot be opened. *)
Lemma parseUpdates_on_unopened :
  let locked :=
    {| file_IsDir := false; file_json := true; file_open_fails := true;
       file_read_fails := false; file_updates := [] |} in
  parseUpdates (Some (locked :: recordings))
    {| self := self (replaying (campus never)); env := quiet |}
  = parseUpdates (Some [locked])
      {| self := self (replaying (campus never)); env := quiet |}.
Proof.
  intros locked.
  apply (parseUpdates_stops_at_unopened [] recordings locked); reflexivity.
Defined.

(** What reading one entry keeps. *)
Lemma after_file_keeps (f : SpoofFile) (w : world) :
  updateID (self (after_file f w)) = updateID (self w)
  ∧ subscribers (self (after_file f w)) = subscribers (self w)
  ∧ ms (self (after_file f w)) = ms (self w)
  ∧ created (env (after_file f w)) = created (env w)
  ∧ called (env (after_file f w)) = called (env w)
  ∧ (dom (spoofIndexes (self w)) = dom (updates (self w)) →
     dom (spoofIndexes (self (after_file f w)))
     = dom (updates (self (after_file f w)))).
Proof.
  unfold after_file.
  destruct (file_read_fails f); simpl;
    (destruct (file_updates f) as [|first rest]; simpl; [done|];
     destruct (loc_VehicleID first); simpl; [|done];
     split_and!; try done; intros Hd; now rewrite !dom_insert_L, Hd).
Qed.

(** X20.  Loading keeps the two maps of the engine on the same vehicles,
    and touches neither the id counter, the subscribers nor the service:
    it persists nothing and calls nobody. *)
Theorem parseUpdates_keeps_the_maps_together
    (listing : option (list SpoofFile)) (w : world) :
  dom (spoofIndexes (self w)) = dom (updates (self w)) →
  let w' := (parseUpdates listing w).1 in
  dom (spoofIndexes (self w')) = dom (updates (self w'))
  ∧ updateID (self w') = updateID (self w)
  ∧ subscribers (self w') = subscribers (self w)
  ∧ ms (self w') = ms (self w)
  ∧ created (env w') = created (env w)
  ∧ called (env w') = called (env w).
Proof.
  intros Hd. destruct listing as [files|]; [|done]. simpl.
  revert w Hd. induction files as [|f files IH]; intros w Hd; [done|].
  rewrite parseUpdates_range_cons.
  destruct (loadable f); [|now apply IH].
  destruct (file_open_fails f); [done|].
  destruct (after_file_keeps f w) as (H1 & H2 & H3 & H4 & H5 & H6).
  destruct (IH (after_file f w) (H6 Hd)) as (K1 & K2 & K3 & K4 & K5 & K6).
  split_and!; congruence.
Qed.

(** Loading the recordings of the vehicles 7 and 8 into a new engine. *)
Lemma parseUpdates_on_recordings :
  let w :=
    {| self :=
         {| spoofInterval := 1000; SpoofUpdates := true; spoofIndexes := ∅;
            updates := ∅; updateID := 1; ms := campus never;
            subscribers := [7%nat] |};
       env := quiet |} in
  let w' := (parseUpdates (Some recordings) w).1 in
  dom (spoofIndexes (self w')) = dom (updates (self w'))
  ∧ updateID (self w') = 1%Z
  ∧ created (env w') = [].
Proof.
  intros w w'.
  destruct (parseUpdates_keeps_the_maps_together (Some recordings) w)
    as (H1 & H2 & _ & _ & H3 & _).
  - simpl. now rewrite !dom_empty_L.
  - split_and!; assumption.
Defined.

(** X21.  Every sequence that the engine holds after loading was held
    before or is the whole content of an entry that was read and opened,
    under the vehicle id of the first location of that entry. *)
Theorem parseUpdates_loads_whole_files (files : list SpoofFile) (w : world)
    (vehicleID : Z) (updates' : list Location) :
  updates (self (parseUpdates (Some files) w).1) !! vehicleID
  = Some updates' →
  updates (self w) !! vehicleID = Some updates'
  ∨ ∃ (f : SpoofFile) (first : Location) (rest : list Location),
      f ∈ files ∧ loadable f = true ∧ file_open_fails f = false
      ∧ file_updates f = updates' ∧ updates' = first :: rest
      ∧ loc_VehicleID first = Some vehicleID.
Proof.
  simpl. revert w. induction files as [|f files IH]; intros w H;
    [now left|].
  rewrite parseUpdates_range_cons in H.
  destruct (loadable f) eqn:Hl.
  2: { destruct (IH w H) as [?|(g & first & rest & Hg & HP)]; [now left|].
       right. exists g, first, rest. split; [|exact HP].
       now apply list_elem_of_further. }
  destruct (file_open_fails f) eqn:Ho; [now left|].
  destruct (IH (after_file f w) H) as [Hold|(g & first & rest & Hg & HP)].
  2: { right. exists g, first, rest. split; [|exact HP].
       now apply list_elem_of_further. }
  clear H IH. unfold after_file in Hold.
  destruct (file_read_fails f); simpl in Hold;
    (destruct (file_updates f) as [|first rest] eqn:Hf; simpl in Hold;
     [now left|];
     destruct (loc_VehicleID first) as [v|] eqn:Hv; simpl in Hold;
     [|now left];
     destruct (decide (v = vehicleID)) as [->|Hne];
     [rewrite lookup_insert_eq in Hold; injection Hold as <-;
      right; exists f, first, rest;
      split_and!; try done; apply list_elem_of_here
     |rewrite lookup_insert_ne in Hold by done; now left]).
Qed.

(** The sequence of vehicle 7 in the recordings. *)
Lemma parseUpdates_loads_vehicle_7 :
  (∅ : gmap Z (list Location)) !! 7%Z
  = Some [place 7 1; place 7 2; place 7 3]
  ∨ ∃ (f : SpoofFile) (first : Location) (rest : list Location),
      f ∈ recordings ∧ loadable f = true ∧ file_open_fails f = false
      ∧ file_updates f = [place 7 1; place 7 2; place 7 3]
      ∧ [place 7 1; place 7 2; place 7 3] = first :: rest
      ∧ loc_VehicleID first = Some 7%Z.
Proof.
  apply (parseUpdates_loads_whole_files recordings
           {| self :=
                {| spoofInterval := 1000; SpoofUpdates := true;
                   spoofIndexes := ∅; updates := ∅; updateID := 1;
                   ms := campus never; subscribers := [7%nat] |};
              env := quiet |} 7%Z [place 7 1; place 7 2; place 7 3]).
  reflexivity.
Defined.

End LoadingFacts.

(** ** A step of the replay *)

Section ReplayFacts.
Import Spoofer Samples.

(** A step whose cursors are within their sequences ends well. *)
Lemma spoof_range_ends_well (order : list Z) (w : world) :
  cursors_within (self w) → (spoof_range order w).2 = Ok tt.
Proof.
  revert w. induction order as [|v order IH]; intros w Hw; [reflexivity|].
  rewrite spoof_range_cons.
  destruct (updates (self w) !! v) as [us|] eqn:Hu; [|now apply IH].
  pose proof (spoof_body_within v us w Hu Hw) as (Hw' & _).
  pose proof (spoof_body_cases v us w) as Hb.
  destruct (item_in_range us (cursor (self w) v) (Hw v us Hu)) as (u & Hi).
  rewrite Hi in Hb. rewrite Hb in Hw' |- *.
  destruct (ms_CreateLocation _ _ _); [reflexivity|].
  now apply IH.
Qed.

Lemma item_outside {A} (l : list A) (i : Z) :
  ¬ (0 ≤ i < len l)%Z → item l i = Panic.
Proof.
  intros H. unfold item, len in *.
  destruct (Z.ltb_spec i 0); [reflexivity|].
  destruct (l !! Z.to_nat i) eqn:Hl; [|reflexivity].
  apply lookup_lt_Some in Hl. lia.
Qed.

(** X22.  A step of the replay ends well when every cursor is within its
    sequence, whatever the service answers; when it comes to a vehicle
    whose cursor is outside its sequence, as for a sequence that is empty,
    it panics there and changes nothing. *)
Theorem spoof_ends_well_within (v : Z) (order : list Z) (w : world) :
  (cursors_within (self w) → (spoof order w).2 = Ok tt)
  ∧ (∀ us : list Location,
       updates (self w) !! v = Some us →
       ¬ (0 ≤ cursor (self w) v < len us)%Z →
       spoof (v :: order) w = (w, Panic)).
Proof.
  split; [apply spoof_range_ends_well|].
  intros us Hu Hout. unfold spoof. rewrite spoof_range_cons, Hu.
  pose proof (spoof_body_cases v us w) as Hb.
  rewrite (item_outside us _ Hout) in Hb. now rewrite Hb.
Qed.

(** The recordings, and an engine that holds an empty sequence for
    vehicle 9. *)
Lemma spoof_on_recordings_and_nothing :
  let w :=
    {| self :=
         {| spoofInterval := 1000; SpoofUpdates := true;
            spoofIndexes := <[9%Z := 0%Z]> ∅; updates := <[9%Z := []]> ∅;
            updateID := 1; ms := campus never; subscribers := [7%nat] |};
       env := quiet |} in
  (spoof [8; 7]%Z (replaying (campus at_first))).2 = Ok tt
  ∧ spoof [9; 7]%Z w = (w, Panic).
Proof.
  intros w. split.
  - apply (spoof_ends_well_within 0 [8; 7]%Z (replaying (campus at_first))).
    apply at_start_within, replaying_at_start.
  - apply (spoof_ends_well_within 9 [7]%Z w) with (us := []).
    + reflexivity.
    + unfold len. simpl. lia.
Defined.

(** The turn of one vehicle leaves what is due for the others. *)
Lemma due_after_spoof (w : world) (v n : Z) (u : Location) (order : list Z) :
  v ∉ order → due (self (after_spoof w v n u)) order = due (self w) order.
Proof.
  induction order as [|x order IH]; intros Hv; [reflexivity|].
  apply not_elem_of_cons in Hv as [Hx Hv].
  unfold due in *. cbn [omap list_omap].
  rewrite (IH Hv), cursor_after_spoof.
  rewrite decide_False by congruence. reflexivity.
Qed.

(** X23.  On a service that persists, a step of the replay hands over,
    for the vehicles in the order of the visit, the recorded location
    under the cursor of each, with ids that count up from the counter of
    the engine and with successive readings of the clock, two for each;
    for every subscriber and each of these locations one callback is
    started, as a goroutine, so in no order that the code fixes, and the
    counter has moved by their number. *)
Theorem spoof_persists_what_is_due (order : list Z) (w : world) :
  persists_all (self w) → cursors_within (self w) → NoDup order →
  (- 2 ^ 63 ≤ updateID (self w))%Z →
  (updateID (self w) + len order < 2 ^ 63)%Z →
  let w' := (spoof order w).1 in
  let new :=
    stamped (clock (env w)) (updateID (self w)) (reads (env w))
      (due (self w) order) in
  created (env w') = created (env w) ++ map (fun loc => (loc, false)) new
  ∧ called (env w')
    ≡ₚ called (env w)
       ++ concat (map (fun loc =>
                         map (fun sub => (sub, loc)) (subscribers (self w)))
                    new)
  ∧ updateID (self w') = (updateID (self w) + len (due (self w) order))%Z.
Proof.
  unfold spoof. revert w.
  induction order as [|v order IH]; intros w Hp Hw Hnd Hlo Hhi.
  { simpl. rewrite !app_nil_r. unfold len. simpl. split_and!; [done..|lia]. }
  apply NoDup_cons in Hnd as [Hv Hnd].
  assert (len (v :: order) = (1 + len order)%Z) as Hlen
    by (unfold len; simpl length; lia).
  rewrite Hlen in Hhi. assert (0 ≤ len order)%Z by (unfold len; lia).
  rewrite spoof_range_cons.
  destruct (updates (self w) !! v) as [us|] eqn:Hu.
  2: { assert (due (self w) (v :: order) = due (self w) order) as ->
         by (unfold due; cbn [omap list_omap]; now rewrite Hu).
       apply IH; try done. lia. }
  pose proof (spoof_body_within v us w Hu Hw) as (Hw' & _ & Hms).
  pose proof (spoof_body_cases v us w) as Hb.
  destruct (item_in_range us (cursor (self w) v) (Hw v us Hu)) as (u & Hi).
  rewrite Hi, Hp in Hb. rewrite Hb in Hw', Hms |- *. cbn [fst] in Hw', Hms.
  assert (due (self w) (v :: order) = u :: due (self w) order) as ->
    by (unfold due; cbn [omap list_omap]; now rewrite Hu, Hi).
  set (w1 := after_spoof w v (len us) u) in *.
  assert (updateID (self w1) = (updateID (self w) + 1)%Z) as Hid
    by (simpl; apply wrap64_small; lia).
  assert (persists_all (self w1)) as Hp1 by exact Hp.
  destruct (IH w1 Hp1 Hw' Hnd) as (H1 & H2 & H3); [lia..|].
  assert (due (self w1) order = due (self w) order) as Hdue
    by exact (due_after_spoof w v (len us) u order Hv).
  rewrite H1, H2, H3, Hid, Hdue. subst w1.
  cbn [stamped map concat]. simpl.
  rewrite <- !app_assoc. simpl.
  split_and!; [reflexivity..|].
  unfold len. simpl length. lia.
Qed.

(** A step on the recordings of the vehicles 7 and 8. *)
Lemma spoof_persists_the_recordings :
  let w' := (spoof [8; 7]%Z (replaying (campus never))).1 in
  created (env w')
  = [(spoofed (place 8 1) 1 1000 1001, false);
     (spoofed (place 7 1) 2 1002 1003, false)]
  ∧ called (env w')
    ≡ₚ [(7%nat, spoofed (place 8 1) 1 1000 1001);
        (7%nat, spoofed (place 7 1) 2 1002 1003)]
  ∧ updateID (self w') = 3%Z.
Proof.
  apply (spoof_persists_what_is_due [8; 7]%Z (replaying (campus never))).
  - intros n loc. reflexivity.
  - apply at_start_within, replaying_at_start.
  - apply (proj1 (replaying_visits (campus never) [8; 7]%Z (or_intror eq_refl))).
  - simpl. lia.
  - unfold len. simpl. lia.
Defined.

(** What the turn of one vehicle adds to the calls and to the record of
    the service. *)
Lemma spoof_body_hears (v : Z) (us : list Location) (w : world) :
  let w' := (spoof_body v us w).1 in
  subscribers (self w') = subscribers (self w)
  ∧ ∃ (more : list (Location * bool)) (new : list (nat * Location)),
      created (env w') = created (env w) ++ more
      ∧ called (env w') = called (env w) ++ new
      ∧ ∀ (sub : nat) (loc : Location),
          (sub, loc) ∈ new →
          sub ∈ subscribers (self w) ∧ (loc, false) ∈ more.
Proof.
  pose proof (spoof_body_cases v us w) as Hb.
  destruct (item us (cursor (self w) v)) as [u| |]; simpl.
  - destruct (ms_CreateLocation _ _ _); rewrite Hb; simpl.
    + split; [reflexivity|]. exists [(emitted w u, true)], [].
      rewrite app_nil_r. split_and!; [reflexivity..|].
      intros sub loc H. now apply elem_of_nil in H.
    + split; [reflexivity|].
      exists [(emitted w u, false)],
        (map (fun sub => (sub, emitted w u)) (subscribers (self w))).
      split_and!; [reflexivity..|].
      intros sub loc H. apply list_elem_of_fmap in H as (x & [= -> ->] & Hx).
      split; [exact Hx|apply list_elem_of_here].
  - rewrite Hb. simpl. split; [reflexivity|]. exists [], [].
    rewrite !app_nil_r. split_and!; [reflexivity..|].
    intros sub loc H. now apply elem_of_nil in H.
  - rewrite Hb. simpl. split; [reflexivity|]. exists [], [].
    rewrite !app_nil_r. split_and!; [reflexivity..|].
    intros sub loc H. now apply elem_of_nil in H.
Qed.

Lemma spoof_range_hears (order : list Z) (w : world) :
  let w' := (spoof_range order w).1 in
  subscribers (self w') = subscribers (self w)
  ∧ ∃ (more : list (Location * bool)) (new : list (nat * Location)),
      created (env w') = created (env w) ++ more
      ∧ called (env w') = called (env w) ++ new
      ∧ ∀ (sub : nat) (loc : Location),
          (sub, loc) ∈ new →
          sub ∈ subscribers (self w) ∧ (loc, false) ∈ more.
Proof.
  revert w. induction order as [|v order IH]; intros w.
  { simpl. split; [reflexivity|]. exists [], []. rewrite !app_nil_r.
    split_and!; [reflexivity..|].
    intros sub loc H. now apply elem_of_nil in H. }
  rewrite spoof_range_cons.
  destruct (updates (self w) !! v) as [us|]; [|apply IH].
  pose proof (spoof_body_hears v us w) as Hb.
  destruct (spoof_body v us w) as [w1 [[|]| |]]; cbn [fst] in Hb |- *;
    try exact Hb.
  destruct Hb as (Hs & more1 & new1 & Hc1 & Hn1 & Hin1).
  destruct (IH w1) as (Hs' & more2 & new2 & Hc2 & Hn2 & Hin2).
  split; [congruence|]. exists (more1 ++ more2), (new1 ++ new2).
  rewrite Hc2, Hn2, Hc1, Hn1, !app_assoc. split_and!; [reflexivity..|].
  intros sub loc H. rewrite !elem_of_app. apply elem_of_app in H as [H|H].
  - destruct (Hin1 sub loc H). auto.
  - destruct (Hin2 sub loc H). split; [congruence|auto].
Qed.

(** X24.  Whatever the service answers, a step of the replay calls the
    subscribers of the engine only, and only with locations that the
    service has persisted in that step. *)
Theorem spoof_tells_what_is_persisted_only (order : list Z) (w : world) :
  let w' := (spoof order w).1 in
  ∃ (more : list (Location * bool)) (new : list (nat * Location)),
    created (env w') = created (env w) ++ more
    ∧ called (env w') = called (env w) ++ new
    ∧ ∀ (sub : nat) (loc : Location),
        (sub, loc) ∈ new →
        sub ∈ subscribers (self w) ∧ (loc, false) ∈ more.
Proof. apply spoof_range_hears. Qed.

End ReplayFacts.

(** ** The life of a replay engine *)

Section EngineFacts.
Import Spoofer Samples.

Lemma parseUpdates_ends_well (listing : option (list SpoofFile))
    (w : world) :
  (parseUpdates listing w).2 = Ok tt.
Proof.
  destruct listing as [files|]; [|reflexivity]. simpl. revert w.
  induction files as [|f files IH]; intros w; [reflexivity|].
  rewrite parseUpdates_range_cons.
  destruct (loadable f); [|apply IH].
  destruct (file_open_fails f); [reflexivity|apply IH].
Qed.

(** [Run] of an engine that is enabled. *)
Lemma Run_enabled (listing : option (list SpoofFile))
    (orders : list (list Z)) (w : world) :
  SpoofUpdates (self w) = true →
  Run listing orders w
  = for_range orders spoof
      (parseUpdates listing (noted "Spoofer started." w)).1.
Proof.
  intros He. unfold Run, mbind, M_bind, gets, when. rewrite He.
  unfold log at 1, set_env, modify.
  change {| self := self w; env := _ |} with (noted "Spoofer started." w).
  pose proof (parseUpdates_ends_well listing (noted "Spoofer started." w))
    as Hp.
  destruct (parseUpdates listing (noted "Spoofer started." w))
    as [w1 r]. simpl in Hp. now subst r.
Qed.

Lemma steps_end_well (orders : list (list Z)) (w : world) :
  cursors_within (self w) → (for_range orders spoof w).2 = Ok tt.
Proof.
  revert w. induction orders as [|o orders IH]; intros w Hw; [reflexivity|].
  pose proof (spoof_range_ends_well o w Hw) as Hr.
  pose proof (spoof_range_within o w Hw) as (Hw' & _).
  destruct (spoof_range o w) as [w1 r] eqn:Ho. simpl in Hr, Hw'. subst r.
  rewrite (for_range_cons o orders spoof w w1 Ho). now apply IH.
Qed.

Lemma steps_of_nothing (orders : list (list Z)) (w : world) :
  updates (self w) = ∅ → for_range orders spoof w = (w, Ok tt).
Proof.
  intros Hw.
  assert (∀ o, spoof o w = (w, Ok tt)) as Hs.
  { induction o as [|v o IH]; [reflexivity|].
    unfold spoof. rewrite spoof_range_cons, Hw, lookup_empty. exact IH. }
  induction orders as [|o orders IH]; [reflexivity|].
  now rewrite (for_range_cons o orders spoof w w (Hs o)).
Qed.

(** X25.  [Run] of an engine that [New] has made ends well, whatever the
    directory holds and whatever the service answers.  When the
    configuration does not enable the replay, it does nothing; when the
    directory cannot be read, it persists nothing and calls nobody. *)
Theorem Run_of_a_new_engine (cfg : Config) (parsed : option time_Time)
    (svc : ModelService) (s : Spoofer) (e : Env Location)
    (listing : option (list SpoofFile)) (orders : list (list Z)) :
  New cfg parsed svc = Some s →
  let w := {| self := s; env := e |} in
  (Run listing orders w).2 = Ok tt
  ∧ (cfg_SpoofUpdates cfg = false → Run listing orders w = (w, Ok tt))
  ∧ (listing = None →
     self (Run listing orders w).1 = s
     ∧ created (env (Run listing orders w).1) = created e
     ∧ called (env (Run listing orders w).1) = called e).
Proof.
  intros Hn w. destruct parsed as [interval|]; [|discriminate].
  injection Hn as <-.
  assert (cfg_SpoofUpdates cfg = false → Run listing orders w = (w, Ok tt))
    as Hoff.
  { intros Hc. unfold Run, mbind, M_bind, gets, when. simpl. now rewrite Hc. }
  split_and!; [|exact Hoff|].
  - destruct (cfg_SpoofUpdates cfg) eqn:Hc; [|now rewrite Hoff].
    rewrite Run_enabled by reflexivity.
    apply steps_end_well, at_start_within.
    destruct listing as [files|]; simpl.
    + apply parseUpdates_range_at_start. intros v us Hv.
      simpl in Hv. by rewrite lookup_empty in Hv.
    + intros v us Hv. simpl in Hv. by rewrite lookup_empty in Hv.
  - intros ->. destruct (cfg_SpoofUpdates cfg) eqn:Hc; [|now rewrite Hoff].
    rewrite Run_enabled by reflexivity.
    rewrite steps_of_nothing by reflexivity. done.
Qed.

(** An engine on the recordings, and one without its directory. *)
Lemma Run_on_recordings :
  let s :=
    {| spoofInterval := 1000; SpoofUpdates := true; spoofIndexes := ∅;
       updates := ∅; updateID := 1; ms := campus at_first;
       subscribers := [] |} in
  let w := {| self := s; env := quiet |} in
  (Run (Some recordings) [[7; 8]; [8; 7]]%Z w).2 = Ok tt
  ∧ created (env (Run None [[7; 8]; [8; 7]]%Z w).1) = [].
Proof.
  intros s w.
  pose proof (Run_of_a_new_engine
                {| cfg_SpoofUpdates := true; cfg_SpoofInterval := "1us" |}
                (Some 1000%Z) (campus at_first) s quiet) as H.
  split.
  - now destruct (H (Some recordings) [[7; 8]; [8; 7]]%Z eq_refl) as (H1 & _).
  - now destruct (H None [[7; 8]; [8; 7]]%Z eq_refl) as (_ & _ & H3);
      destruct (H3 eq_refl) as (_ & H4 & _).
Defined.

End EngineFacts.
